(** * CV / job matching engine of job-market-explorer

    A shallow embedding of [src/analysis/matching.py] together with its two
    earlier siblings [src/analysis/cv_matching.py] and
    [src/analysis/semantic_matching.py].

    Conventions of the embedding.
    - A Python [str] is a [string]; one [ascii] stands for one code point of
      the range 0..255, and [str.lower], [str.strip] and the regular
      expression class [\s] are given on that range.
    - A Python [float] is the rational number of [Q] it denotes; numeric
      [==], [<=], [<] are [Qeq], [Qle], [Qlt].  A value of [Q] that is used
      as a float stands for the binary64 value nearest to it, [Num.fl]:
      [a + b] and [a * b] are [Num.fadd] and [Num.fmul], which round the
      exact result on these doubles to the nearest double, and
      [round(x, n)] rounds the exact decimal expansion of the double of [x]
      to the nearest multiple of [10^-n], ties to even; so [round(1/40, 2)]
      is 0.03, the double nearest to 0.025 lying above it, and
      [round(1/8, 2)] is 0.12.  [len(a) / len(b)] is kept as the exact
      quotient, whose double the sums, the products and [round] take.  The
      exponent range of the doubles is not bounded.
    - A Python [dict] and a pandas [Series] are a [gmap string _]; a [set]
      of [str] is a [gset string].
    - An exception is the [Raise] case of [result].
    - The sentence-embedding model is a parameter: [cos_sim a b] is the
      cosine similarity of the embeddings of the texts [a] and [b]. *)

From Stdlib Require Import ZArith QArith Qround Qpower Lqa Lia String Ascii List.
From Stdlib Require Import Sorting.Sorted Sorting.Permutation.
From stdpp Require Import base gmap sets list strings.

Set Warnings "-register-all,-clear-no-such-hyp".

Local Open Scope Z_scope.
Local Open Scope string_scope.
Local Open Scope list_scope.

(** ** Python values reaching the matcher *)

Inductive pyval : Type :=
  | PNone
  | PBool (b : bool)
  | PInt (z : Z)
  | PFloat (q : Q)
  | PStr (s : string)
  | PList (l : list pyval).

Inductive exn : Type :=
  | KeyError (k : string)
  | AttributeError (attr : string)
  | ValueError (msg : string).

Inductive result (A : Type) : Type :=
  | Return (a : A)
  | Raise (e : exn).
Arguments Return {A} a.
Arguments Raise {A} e.

#[global] Instance result_ret : MRet result := fun _ a => Return a.

#[global] Instance result_bind : MBind result := fun _ _ k m =>
  match m with
  | Return a => k a
  | Raise e => Raise e
  end.

(** ** Characters and the [str] methods used by [norm_text] *)

Module Str.

Definition code (c : ascii) : N := N_of_ascii c.

(** [str.isspace] on one code point, which is also the class [\s] of [re]
    for a [str] pattern. *)
Definition isspace (c : ascii) : bool :=
  let n := code c in
  ((9 <=? n) && (n <=? 13) || (28 <=? n) && (n <=? 32)
   || (n =? 133) || (n =? 160))%N.

Definition isupper (c : ascii) : bool :=
  let n := code c in
  ((65 <=? n) && (n <=? 90) || (192 <=? n) && (n <=? 214)
   || (216 <=? n) && (n <=? 222))%N.

Definition lower_char (c : ascii) : ascii :=
  if isupper c then ascii_of_N (code c + 32) else c.

(** [s.lower()] *)
Fixpoint lower (s : string) : string :=
  match s with
  | EmptyString => EmptyString
  | String c r => String (lower_char c) (lower r)
  end.

Fixpoint lstrip (s : string) : string :=
  match s with
  | EmptyString => EmptyString
  | String c r => if isspace c then lstrip r else s
  end.

Fixpoint rstrip (s : string) : string :=
  match s with
  | EmptyString => EmptyString
  | String c r =>
      match rstrip r with
      | EmptyString => if isspace c then EmptyString else String c EmptyString
      | r' => String c r'
      end
  end.

(** [s.strip()] *)
Definition strip (s : string) : string := rstrip (lstrip s).

(** [re.sub(r"\s+", " ", s)]: [in_run] tells that the previous character
    belonged to a run of whitespace already replaced. *)
Fixpoint sub_ws_from (in_run : bool) (s : string) : string :=
  match s with
  | EmptyString => EmptyString
  | String c r =>
      if isspace c
      then (if in_run then sub_ws_from true r
            else String " " (sub_ws_from true r))
      else String c (sub_ws_from false r)
  end.

Definition sub_ws (s : string) : string := sub_ws_from false s.

(** What "lowercase", "trimmed" and "whitespace-collapsed" mean, stated
    without the functions above. *)
Fixpoint no_upper (s : string) : bool :=
  match s with
  | EmptyString => true
  | String c r => negb (isupper c) && no_upper r
  end.

Definition starts_space (s : string) : bool :=
  match s with
  | EmptyString => false
  | String c _ => isspace c
  end.

Fixpoint ends_space (s : string) : bool :=
  match s with
  | EmptyString => false
  | String c EmptyString => isspace c
  | String _ r => ends_space r
  end.

Fixpoint single_spaced (s : string) : bool :=
  match s with
  | EmptyString => true
  | String c r =>
      (if isspace c then Ascii.eqb c " " && negb (starts_space r) else true)
      && single_spaced r
  end.

Definition trimmed (s : string) : bool :=
  negb (starts_space s) && negb (ends_space s).

(** A canonical item: lowercase, trimmed, whitespace-collapsed, non-empty. *)
Definition canonical (s : string) : bool :=
  no_upper s && trimmed s && single_spaced s
  && negb (String.eqb s EmptyString).

End Str.

(** ** Numbers *)

Module Num.

(** Nearest integer, ties to the even one. *)
Definition round_half_even (q : Q) : Z :=
  let f := Qfloor q in
  match (2 * (q - inject_Z f) ?= 1)%Q with
  | Lt => f
  | Gt => f + 1
  | Eq => if Z.even f then f else f + 1
  end.

(** The binary exponent of a positive [x]: the [k] with
    [2^k <= x < 2^(k+1)]. *)
Definition ilog2 (x : Q) : Z :=
  let n := Z.log2 (Zpos (Qden x)) + 1 in
  Z.log2 (Qnum x * 2 ^ n / Zpos (Qden x)) - n.

(** The binary64 value nearest to a positive [x], ties to even: [x] is
    scaled to a 53-bit significand, which is rounded to an integer.  The
    exponent range is not bounded. *)
Definition fl_pos (x : Q) : Q :=
  let e := ilog2 x - 52 in
  (inject_Z (round_half_even (x * 2 ^ (- e))) * 2 ^ e)%Q.

(** The binary64 value nearest to [x]: what a [float] holds after one
    correctly rounded operation whose exact result is [x]. *)
Definition fl (x : Q) : Q :=
  let y := Qred x in
  match Qnum y with
  | Z0 => 0%Q
  | Zpos _ => fl_pos y
  | Zneg _ => (- fl_pos (- y))%Q
  end.

(** [a + b] and [a * b] on floats. *)
Definition fadd (a b : Q) : Q := fl (fl a + fl b).

Definition fmul (a b : Q) : Q := fl (fl a * fl b).

Definition pow10 (ndigits : nat) : positive :=
  Nat.iter ndigits (Pos.mul 10) 1%positive.

(** [round(x, ndigits)]: the decimal with [ndigits] places nearest to the
    exact value of the double that holds [x], ties to even. *)
Definition round (x : Q) (ndigits : nat) : Q :=
  let p := pow10 ndigits in
  Qmake (round_half_even (fl x * inject_Z (Zpos p))) p.

(** [len(s)] as a float operand. *)
Definition of_len (n : nat) : Q := inject_Z (Z.of_nat n).

(** [a >= b] *)
Definition geb (a b : Q) : bool := Qle_bool b a.

(** [max] of a non-empty row [x :: xs]. *)
Definition row_max (x : Q) (xs : list Q) : Q :=
  fold_left (fun m y => if Qle_bool y m then m else y) xs x.

End Num.

(** ** Sorting helpers *)

Module Sorting.

Section Insertion.
Context {A : Type}.
(** [lt a b]: [a] comes strictly before [b] in ascending order. *)
Variable lt : A -> A -> bool.

(** Stable insertion for a descending order: [x], which stood before the
    elements of [l] in the input, overtakes every element not strictly
    greater than it. *)
Fixpoint insert_desc (x : A) (l : list A) : list A :=
  match l with
  | [] => [x]
  | y :: r => if lt x y then y :: insert_desc x r else x :: l
  end.

Fixpoint sort_desc (l : list A) : list A :=
  match l with
  | [] => []
  | x :: r => insert_desc x (sort_desc r)
  end.

(** The ascending counterpart, also stable. *)
Fixpoint insert_asc (x : A) (l : list A) : list A :=
  match l with
  | [] => [x]
  | y :: r => if lt y x then y :: insert_asc x r else x :: l
  end.

Fixpoint sort_asc (l : list A) : list A :=
  match l with
  | [] => []
  | x :: r => insert_asc x (sort_asc r)
  end.
End Insertion.

(** [sorted(set(items))] on strings. *)
Definition sorted_set (items : list string) : list string :=
  sort_asc String.ltb (elements (list_to_set items : gset string)).

End Sorting.

(** ** Records shared by the modules *)

(** The dictionary returned by [semantic_overlap]. *)
Record overlap : Type := Overlap {
  matched : list string;
  missing : list string;
  cov : Q
}.

(** Skill and language categories of a job offer. *)
Inductive category : Type :=
  | HardRequired
  | HardOptional
  | Soft
  | LanguagesRequired
  | LanguagesOptional.

(** Calls into the embedding layer made on behalf of the matcher: a call of
    [semantic_overlap] for a category, or of [semantic_similarity_text];
    each with the batches it handed to [model.encode]. *)
Inductive call : Type :=
  | OverlapCall (c : category) (encoded : list (list string))
  | SimilarityCall (encoded : list (list string)).

(** [d.get(k)] and [d.get(k, default)] *)
Definition get (d : gmap string pyval) (k : string) : pyval :=
  default PNone (d !! k).

Definition get_or (d : gmap string pyval) (k : string) (dflt : pyval) : pyval :=
  default dflt (d !! k).

(** [weights[k]] *)
Definition getitem (w : gmap string Q) (k : string) : result Q :=
  match w !! k with
  | Some v => Return v
  | None => Raise (KeyError k)
  end.

(** Truth value of a [str] and of a [list]. *)
Definition truthy_str (s : string) : bool := negb (String.eqb s EmptyString).

Definition truthy_list {A} (l : list A) : bool :=
  match l with [] => false | _ => true end.

(** ** The classification loop of [semantic_overlap]

    Both versions of [semantic_overlap] run the same loop over the rows of
    [cosine_similarity(job_emb, cv_emb)]. *)

Module Semantic.

Section Loop.
(** Cosine similarity of the embeddings of two texts. *)
Variable cos_sim : string -> string -> Q.

(** [sim[i].max() >= threshold] for the job item [job_item], the row of
    the similarity matrix ranging over the non-empty [cv0 :: cvs]. *)
Definition is_matched (threshold : Q) (cv0 : string) (cvs : list string)
    (job_item : string) : bool :=
  Num.geb (Num.row_max (cos_sim job_item cv0) (map (cos_sim job_item) cvs))
          threshold.

(** The loop [for i, job_item in enumerate(job_items)] with its two
    accumulators. *)
Fixpoint classify (p : string -> bool) (job_items matched missing : list string)
    : list string * list string :=
  match job_items with
  | [] => (matched, missing)
  | job_item :: r =>
      if p job_item then classify p r (matched ++ [job_item]) missing
      else classify p r matched (missing ++ [job_item])
  end.
End Loop.

End Semantic.

(** ** [src/analysis/matching.py] *)

Module Matching.

Definition norm_text (s : pyval) : string :=
  match s with
  | PStr s => Str.sub_ws (Str.lower (Str.strip s))
  | _ => EmptyString
  end.

(** The loop of [norm_list], which is also the comprehension
    [[norm_text(x) for x in items if isinstance(x, str) and norm_text(x)]]
    of [semantic_overlap]. *)
Fixpoint norm_items (items : list pyval) : list string :=
  match items with
  | [] => []
  | v :: r =>
      match v with
      | PStr _ =>
          let vv := norm_text v in
          if truthy_str vv then vv :: norm_items r else norm_items r
      | _ => norm_items r
      end
  end.

Definition norm_list (x : pyval) : list string :=
  match x with
  | PList l => norm_items l
  | _ => []
  end.

Definition to_set (x : pyval) : gset string := list_to_set (norm_list x).

Definition coverage (cv_set job_set : gset string) : Q :=
  if (size job_set =? 0)%nat then 1%Q
  else (Num.of_len (size (cv_set ∩ job_set)) / Num.of_len (size job_set))%Q.

Definition default_weights : gmap string Q :=
  <["hard_required" := 45 # 100]>
  (<["hard_optional" := 15 # 100]>
  (<["soft" := 10 # 100]>
  (<["languages" := 10 # 100]>
  (<["description" := 20 # 100]> ∅)))).

(** The dictionary returned by [match_cv_job]. *)
Record match_result : Type := MatchResult {
  score : Q;
  hard_required_coverage : Q;
  hard_optional_coverage : Q;
  soft_coverage : Q;
  languages_required_coverage : Q;
  description_similarity : Q;
  hard_required_missing : list string;
  hard_optional_missing : list string;
  soft_skills_missing : list string;
  languages_required_missing : list string;
  languages_optional_missing : list string;
  used_semantic_skills : bool;
  skill_threshold_used : Q;
  used_description_semantic : bool;
  weights_used : gmap string Q
}.

(** One row of the frame built by [match_cv_market]. *)
Record row : Type := Row {
  job_title : pyval;
  company : pyval;
  location : pyval;
  source : pyval;
  url : pyval;
  m : match_result
}.

Section Engine.
Variable cos_sim : string -> string -> Q.

(** [semantic_overlap], with the batches handed to [embed_texts]. *)
Definition semantic_overlap (cv_items job_items : list pyval)
    (threshold : Q) : overlap * list (list string) :=
  let cv_items := norm_items cv_items in
  let job_items := norm_items job_items in
  if negb (truthy_list job_items) then (Overlap [] [] 1, [])
  else
    match cv_items with
    | [] => (Overlap [] job_items 0, [])
    | cv0 :: cvs =>
        let '(matched, missing) :=
          Semantic.classify (Semantic.is_matched cos_sim threshold cv0 cvs)
                            job_items [] [] in
        let cov :=
          if truthy_list job_items
          then (Num.of_len (length matched) / Num.of_len (length job_items))%Q
          else 1%Q in
        (Overlap matched missing (Num.round cov 2), [cv_items; job_items])
    end.

(** [semantic_similarity_text], with the batches handed to [embed_text]. *)
Definition semantic_similarity_text (cv_text job_text : pyval)
    : Q * list (list string) :=
  let cv_text := norm_text cv_text in
  let job_text := norm_text job_text in
  if negb (truthy_str cv_text) || negb (truthy_str job_text) then (0%Q, [])
  else (Num.round (cos_sim cv_text job_text) 3, [[cv_text]; [job_text]]).

(** One of the three blocks under [if use_semantic_skills:]: the
    coverage kept for the category, the detail of the fallback when it
    ran, and the call it made. *)
Definition fallback (use_semantic_skills : bool) (c : category)
    (cv_list job_list : list string) (cv_set job_set : gset string)
    (exact threshold : Q) : Q * option overlap * list call :=
  if use_semantic_skills && truthy_list job_list
     && (0 <? size (job_set ∖ cv_set))%nat
  then
    let '(detail, encoded) :=
      semantic_overlap (PStr <$> cv_list) (PStr <$> job_list) threshold in
    (cov detail, Some detail, [OverlapCall c encoded])
  else (exact, None, []).

(** [list(job_set - cv_set)], replaced by the fallback's list when the
    fallback ran. *)
Definition missing_of (detail : option overlap) (cv_set job_set : gset string)
    : list string :=
  match detail with
  | Some d => missing d
  | None => elements (job_set ∖ cv_set)
  end.

Definition match_cv_job (cv job : gmap string pyval)
    (use_semantic_skills : bool) (skill_threshold : Q)
    (use_description_semantic : bool) (weights : option (gmap string Q))
    : list call * result match_result :=
  let weights := default default_weights weights in
  (* CV inputs *)
  let cv_hard_list := norm_list (get cv "skills_hard") in
  let cv_soft_list := norm_list (get cv "skills_soft") in
  let cv_lang_list := norm_list (get cv "languages") in
  let cv_text := norm_text (get_or cv "text" (PStr "")) in
  let cv_hard : gset string := list_to_set cv_hard_list in
  let cv_soft : gset string := list_to_set cv_soft_list in
  let cv_lang : gset string := list_to_set cv_lang_list in
  (* Job inputs *)
  let job_req_list := norm_list (get job "skills_hard_required") in
  let job_opt_list := norm_list (get job "skills_hard_optional") in
  let job_soft_list := norm_list (get job "skills_soft") in
  let job_lang_req_list := norm_list (get job "languages_required") in
  let job_lang_opt_list := norm_list (get job "languages_optional") in
  let job_desc := norm_text (get_or job "description" (PStr "")) in
  let job_req : gset string := list_to_set job_req_list in
  let job_opt : gset string := list_to_set job_opt_list in
  let job_soft : gset string := list_to_set job_soft_list in
  let job_lang_req : gset string := list_to_set job_lang_req_list in
  let job_lang_opt : gset string := list_to_set job_lang_opt_list in
  (* Exact coverage *)
  let hard_req_exact := coverage cv_hard job_req in
  let hard_opt_exact := coverage cv_hard job_opt in
  let soft_exact := coverage cv_soft job_soft in
  let lang_req_exact := coverage cv_lang job_lang_req in
  (* Semantic fallback for skills *)
  let '(hard_req, sem_req_detail, calls_req) :=
    fallback use_semantic_skills HardRequired cv_hard_list job_req_list
             cv_hard job_req hard_req_exact skill_threshold in
  let '(hard_opt, sem_opt_detail, calls_opt) :=
    fallback use_semantic_skills HardOptional cv_hard_list job_opt_list
             cv_hard job_opt hard_opt_exact skill_threshold in
  let '(lang_req, sem_lang_detail, calls_lang) :=
    fallback use_semantic_skills LanguagesRequired cv_lang_list
             job_lang_req_list cv_lang job_lang_req lang_req_exact
             skill_threshold in
  (* Description semantic similarity *)
  let '(desc_sim, calls_desc) :=
    if use_description_semantic
    then
      let '(sim, encoded) :=
        semantic_similarity_text (PStr cv_text) (PStr job_desc) in
      (sim, [SimilarityCall encoded])
    else (0%Q, []) in
  let calls := calls_req ++ calls_opt ++ calls_lang ++ calls_desc in
  (calls,
   (* Score *)
   w_req ← getitem weights "hard_required";
   w_opt ← getitem weights "hard_optional";
   w_soft ← getitem weights "soft";
   w_lang ← getitem weights "languages";
   w_desc ← getitem weights "description";
   let total :=
     Num.fadd
       (Num.fadd
          (Num.fadd
             (Num.fadd (Num.fmul w_req hard_req) (Num.fmul w_opt hard_opt))
             (Num.fmul w_soft soft_exact))
          (Num.fmul w_lang lang_req))
       (Num.fmul w_desc desc_sim) in
   (* Explainability *)
   let hard_required_missing := missing_of sem_req_detail cv_hard job_req in
   let hard_optional_missing := missing_of sem_opt_detail cv_hard job_opt in
   let languages_required_missing :=
     missing_of sem_lang_detail cv_lang job_lang_req in
   let languages_optional_missing := elements (job_lang_opt ∖ cv_lang) in
   let soft_missing := elements (job_soft ∖ cv_soft) in
   mret {|
     score := Num.round (Num.fmul total 100) 1;
     hard_required_coverage := Num.round hard_req 2;
     hard_optional_coverage := Num.round hard_opt 2;
     soft_coverage := Num.round soft_exact 2;
     languages_required_coverage := Num.round lang_req 2;
     description_similarity := Num.round desc_sim 3;
     hard_required_missing := Sorting.sorted_set hard_required_missing;
     hard_optional_missing := Sorting.sorted_set hard_optional_missing;
     soft_skills_missing := Sorting.sorted_set soft_missing;
     languages_required_missing :=
       Sorting.sorted_set languages_required_missing;
     languages_optional_missing :=
       Sorting.sorted_set languages_optional_missing;
     used_semantic_skills := use_semantic_skills;
     skill_threshold_used := skill_threshold;
     used_description_semantic := use_description_semantic;
     weights_used := weights
   |}).

(** The key of [sort_values(["score", "hard_required_coverage",
    "description_similarity"], ascending=False)]: [key_lt a b] when [a]
    sorts strictly below [b]. *)
Definition key_compare (a b : row) : comparison :=
  match (score (m a) ?= score (m b))%Q with
  | Eq =>
      match (hard_required_coverage (m a) ?= hard_required_coverage (m b))%Q with
      | Eq => (description_similarity (m a) ?= description_similarity (m b))%Q
      | c => c
      end
  | c => c
  end.

Definition key_lt (a b : row) : bool :=
  match key_compare a b with Lt => true | _ => false end.

(** The loop over [df_jobs.iterrows()]. *)
Fixpoint market_loop (cv : gmap string pyval) (jobs : list (gmap string pyval))
    (min_score : Q) (use_semantic_skills : bool) (skill_threshold : Q)
    (use_description_semantic : bool) (weights : option (gmap string Q))
    (results : list row) : result (list row) :=
  match jobs with
  | [] => mret results
  | job :: rest =>
      r ← (match_cv_job cv job use_semantic_skills skill_threshold
                        use_description_semantic weights).2;
      let results :=
        if Num.geb (score r) min_score
        then results ++ [ {| job_title := get_or job "title" (PStr "");
                             company := get_or job "company" (PStr "");
                             location := get_or job "location" (PStr "");
                             source := get_or job "source" (PStr "");
                             url := get_or job "url" (PStr "");
                             m := r |} ]
        else results in
      market_loop cv rest min_score use_semantic_skills skill_threshold
                  use_description_semantic weights results
  end.

(** [match_cv_market]; a frame is the list of its rows, [pd.DataFrame()]
    the empty list. *)
Definition match_cv_market (cv : gmap string pyval)
    (df_jobs : list (gmap string pyval)) (min_score : Q)
    (use_semantic_skills : bool) (skill_threshold : Q)
    (use_description_semantic : bool) (weights : option (gmap string Q))
    : result (list row) :=
  results ← market_loop cv df_jobs min_score use_semantic_skills
                        skill_threshold use_description_semantic weights [];
  if negb (truthy_list results) then mret []
  else mret (Sorting.sort_desc key_lt results).

End Engine.

End Matching.

(** ** [src/analysis/cv_matching.py] *)

Module CvMatching.

(** [[i.lower() for i in x]]: an element without a [lower] method raises. *)
Fixpoint lower_all (x : list pyval) : result (list string) :=
  match x with
  | [] => mret []
  | i :: r =>
      match i with
      | PStr s => rest ← lower_all r; mret (Str.lower s :: rest)
      | _ => Raise (AttributeError "lower")
      end
  end.

Definition to_set (x : pyval) : result (gset string) :=
  match x with
  | PList l => items ← lower_all l; mret (list_to_set items)
  | _ => mret ∅
  end.

Definition coverage (cv_set job_set : gset string) : Q :=
  if (size job_set =? 0)%nat then 1%Q
  else (Num.of_len (size (cv_set ∩ job_set)) / Num.of_len (size job_set))%Q.

Definition default_weights : gmap string Q :=
  <["hard_required" := 6 # 10]>
  (<["hard_optional" := 2 # 10]>
  (<["soft" := 1 # 10]>
  (<["languages" := 1 # 10]> ∅))).

Record match_result : Type := MatchResult {
  score : Q;
  hard_required_missing : list string;
  hard_optional_missing : list string;
  soft_skills_missing : list string;
  languages_missing : list string;
  hard_required_coverage : Q;
  hard_optional_coverage : Q;
  soft_coverage : Q;
  languages_coverage : Q
}.

Record row : Type := Row {
  job_title : pyval;
  company : pyval;
  location : pyval;
  source : pyval;
  url : pyval;
  m : match_result
}.

Definition match_cv_job (cv job : gmap string pyval)
    (weights : option (gmap string Q)) : result match_result :=
  let weights := default default_weights weights in
  cv_hard ← to_set (get cv "skills_hard");
  cv_soft ← to_set (get cv "skills_soft");
  cv_lang ← to_set (get cv "languages");
  job_req ← to_set (get job "skills_hard_required");
  job_opt ← to_set (get job "skills_hard_optional");
  job_soft ← to_set (get job "skills_soft");
  job_lang_req ← to_set (get job "languages_required");
  let hard_required_score := coverage cv_hard job_req in
  let hard_optional_score := coverage cv_hard job_opt in
  let soft_score := coverage cv_soft job_soft in
  let language_score := coverage cv_lang job_lang_req in
  w_req ← getitem weights "hard_required";
  w_opt ← getitem weights "hard_optional";
  w_soft ← getitem weights "soft";
  w_lang ← getitem weights "languages";
  let total_score :=
    Num.fadd
      (Num.fadd
         (Num.fadd (Num.fmul w_req hard_required_score)
                   (Num.fmul w_opt hard_optional_score))
         (Num.fmul w_soft soft_score))
      (Num.fmul w_lang language_score) in
  mret {|
    score := Num.round (Num.fmul total_score 100) 1;
    hard_required_missing := elements (job_req ∖ cv_hard);
    hard_optional_missing := elements (job_opt ∖ cv_hard);
    soft_skills_missing := elements (job_soft ∖ cv_soft);
    languages_missing := elements (job_lang_req ∖ cv_lang);
    hard_required_coverage := Num.round hard_required_score 2;
    hard_optional_coverage := Num.round hard_optional_score 2;
    soft_coverage := Num.round soft_score 2;
    languages_coverage := Num.round language_score 2
  |}.

Definition score_lt (a b : row) : bool :=
  match (score (m a) ?= score (m b))%Q with Lt => true | _ => false end.

Fixpoint market_loop (cv : gmap string pyval) (jobs : list (gmap string pyval))
    (min_score : Q) (results : list row) : result (list row) :=
  match jobs with
  | [] => mret results
  | job :: rest =>
      r ← match_cv_job cv job None;
      let results :=
        if Num.geb (score r) min_score
        then results ++ [ {| job_title := get job "title";
                             company := get job "company";
                             location := get job "location";
                             source := get job "source";
                             url := get job "url";
                             m := r |} ]
        else results in
      market_loop cv rest min_score results
  end.

(** [pd.DataFrame(results).sort_values("score", ascending=False)]: the frame
    of an empty list of records has no column, and [sort_values] raises
    [KeyError] on a label that is no column. *)
Definition sort_values_score (results : list row) : result (list row) :=
  match results with
  | [] => Raise (KeyError "score")
  | _ => mret (Sorting.sort_desc score_lt results)
  end.

Definition match_cv_market (cv : gmap string pyval)
    (df_jobs : list (gmap string pyval)) (min_score : Q) : result (list row) :=
  results ← market_loop cv df_jobs min_score [];
  sort_values_score results.

End CvMatching.

(** ** [src/analysis/semantic_matching.py] *)

Module SemanticMatching.

Section Engine.
Variable cos_sim : string -> string -> Q.

(** [if not cv_skills or not job_skills] is the first branch of the [match]
    and the test on [job_skills] after it. *)
Definition semantic_overlap (cv_skills job_skills : list string)
    (threshold : Q) : overlap :=
  match cv_skills with
  | [] => Overlap [] job_skills 0
  | cv0 :: cvs =>
      if negb (truthy_list job_skills) then Overlap [] job_skills 0
      else
        let '(matched, missing) :=
          Semantic.classify (Semantic.is_matched cos_sim threshold cv0 cvs)
                            job_skills [] [] in
        let coverage :=
          (Num.of_len (length matched) / Num.of_len (length job_skills))%Q in
        Overlap matched missing (Num.round coverage 2)
  end.
End Engine.

End SemanticMatching.


(** ** [src/app.py]: what reaches the matcher *)

Module App.

Definition comma : ascii := ",".

(** [s.split(",")] *)
Fixpoint split_comma (s : string) : list string :=
  match s with
  | EmptyString => [EmptyString]
  | String c r =>
      if Ascii.eqb c comma then EmptyString :: split_comma r
      else
        match split_comma r with
        | field :: fields => String c field :: fields
        | [] => [String c EmptyString]
        end
  end.

(** [", ".join(items)] *)
Fixpoint join_comma (items : list string) : string :=
  match items with
  | [] => EmptyString
  | [item] => item
  | item :: rest => item ++ String comma (String " " (join_comma rest))
  end.

(** The comprehension [[t.strip() for t in fields if t.strip()]]. *)
Fixpoint strip_fields (fields : list string) : list string :=
  match fields with
  | [] => []
  | t :: r =>
      if truthy_str (Str.strip t) then Str.strip t :: strip_fields r
      else strip_fields r
  end.

(** [[s.strip() for s in text.split(",") if s.strip()]], the reading of a
    text input of the CV form and of a comma-separated cell. *)
Definition parse_fields (text : string) : list string :=
  strip_fields (split_comma text).

(** The dictionary [cv] built from the form. *)
Definition build_cv (skills_hard skills_soft languages cv_text : string)
    : gmap string pyval :=
  <["skills_hard" := PList (PStr <$> parse_fields skills_hard)]>
  (<["skills_soft" := PList (PStr <$> parse_fields skills_soft)]>
  (<["languages" := PList (PStr <$> parse_fields languages)]>
  (<["text" := PStr cv_text]> ∅))).

(** [","] in [s] *)
Fixpoint has_comma (s : string) : bool :=
  match s with
  | EmptyString => false
  | String c r => Ascii.eqb c comma || has_comma r
  end.

(** [s.startswith(c)] and [s.endswith(c)] for a one-character [c]. *)
Definition startswith (s : string) (c : ascii) : bool :=
  match s with
  | EmptyString => false
  | String c' _ => Ascii.eqb c' c
  end.

Fixpoint endswith (s : string) (c : ascii) : bool :=
  match s with
  | EmptyString => false
  | String c' EmptyString => Ascii.eqb c' c
  | String _ r => endswith r c
  end.

Definition bracketed (s : string) : bool :=
  startswith s "[" && endswith s "]" || startswith s "(" && endswith s ")".

Section ParseCell.
(** [ast.literal_eval], which returns a value or raises. *)
Variable literal_eval : string -> result pyval.

Definition _parse_list_cell (v : pyval) : list pyval :=
  match v with
  | PList l => l
  | PNone => []
  | PStr v =>
      let s := Str.strip v in
      if negb (truthy_str s) then []
      else if bracketed s then
        match literal_eval s with
        | Return (PList x) => x
        | Return _ => []
        | Raise _ => []
        end
      else if has_comma s then PStr <$> strip_fields (split_comma s)
      else [PStr s]
  | _ => []
  end.
End ParseCell.

(** The call of [match_cv_market] in the matching tab: the options of the
    form, and no [weights]. *)
Definition run_matching (cos_sim : string -> string -> Q)
    (skills_hard skills_soft languages cv_text : string)
    (df_source : list (gmap string pyval)) (min_score : Q)
    (use_sem_skills use_desc_sem : bool) (skill_threshold : Q)
    : result (list Matching.row) :=
  Matching.match_cv_market cos_sim
    (build_cv skills_hard skills_soft languages cv_text)
    df_source min_score use_sem_skills skill_threshold use_desc_sem None.

End App.


(** ** Vocabulary of the statements *)

(** The result of the loop part of [semantic_overlap], for the job items
    [J] it iterates over. *)
Definition partitions (J : list string) (ov : overlap) : Prop :=
  (exists p : string -> bool,
      matched ov = List.filter p J
      /\ missing ov = List.filter (fun j => negb (p j)) J)
  /\ (forall x, In x J <-> In x (matched ov) \/ In x (missing ov))
  /\ (forall x, ~ (In x (matched ov) /\ In x (missing ov)))
  /\ (length (matched ov) + length (missing ov) = length J)%nat
  /\ (cov ov
      == Num.round (Num.of_len (length (matched ov)) / Num.of_len (length J)) 2)%Q.


(** The CV field and the job field that [match_cv_job] pairs for a
    category, and the exact coverage of the category. *)
Definition cv_field (c : category) : string :=
  match c with
  | HardRequired | HardOptional => "skills_hard"
  | Soft => "skills_soft"
  | LanguagesRequired | LanguagesOptional => "languages"
  end.

Definition job_field (c : category) : string :=
  match c with
  | HardRequired => "skills_hard_required"
  | HardOptional => "skills_hard_optional"
  | Soft => "skills_soft"
  | LanguagesRequired => "languages_required"
  | LanguagesOptional => "languages_optional"
  end.

Definition exact_coverage (c : category) (cv job : gmap string pyval) : Q :=
  Matching.coverage (Matching.to_set (get cv (cv_field c)))
                    (Matching.to_set (get job (job_field c))).

(** The categories for which [match_cv_job] has a fallback block. *)
Definition eligible (c : category) : bool :=
  match c with
  | HardRequired | HardOptional | LanguagesRequired => true
  | Soft | LanguagesOptional => false
  end.

(** The coverage [match_cv_job] keeps for an eligible category: the exact
    one, or the one of the fallback when it ran. *)
Definition resolved_coverage (cos_sim : string -> string -> Q)
    (use_semantic_skills : bool) (skill_threshold : Q) (c : category)
    (cv job : gmap string pyval) : Q :=
  (Matching.fallback cos_sim use_semantic_skills c
     (Matching.norm_list (get cv (cv_field c)))
     (Matching.norm_list (get job (job_field c)))
     (Matching.to_set (get cv (cv_field c)))
     (Matching.to_set (get job (job_field c)))
     (exact_coverage c cv job) skill_threshold).1.1.

(** The value of [desc_sim] in [match_cv_job]. *)
Definition description_term (cos_sim : string -> string -> Q)
    (use_description_semantic : bool) (cv job : gmap string pyval) : Q :=
  if use_description_semantic
  then (Matching.semantic_similarity_text cos_sim
          (PStr (Matching.norm_text (get_or cv "text" (PStr ""))))
          (PStr (Matching.norm_text (get_or job "description" (PStr ""))))).1
  else 0%Q.


(** The five keys [match_cv_job] reads in [weights]. *)
Definition recognized : list string :=
  ["hard_required"; "hard_optional"; "soft"; "languages"; "description"].

(** [w1 * c1 + w2 * c2 + w3 * c3 + w4 * c4 + w5 * c5] and
    [w1 + w2 + w3 + w4 + w5] on floats, added from the left. *)
Definition weighted_total (w1 w2 w3 w4 w5 c1 c2 c3 c4 c5 : Q) : Q :=
  Num.fadd
    (Num.fadd
       (Num.fadd (Num.fadd (Num.fmul w1 c1) (Num.fmul w2 c2)) (Num.fmul w3 c3))
       (Num.fmul w4 c4))
    (Num.fmul w5 c5).

Definition float_sum (w1 w2 w3 w4 w5 : Q) : Q :=
  Num.fadd (Num.fadd (Num.fadd (Num.fadd w1 w2) w3) w4) w5.

(** The sum of the five weights [match_cv_job] reads, added in the order in
    which it adds their terms to [total]. *)
Definition weight_of (weights : gmap string Q) (k : string) : Q :=
  default 0%Q (weights !! k).

Definition recognized_sum (weights : gmap string Q) : Q :=
  float_sum (weight_of weights "hard_required")
    (weight_of weights "hard_optional") (weight_of weights "soft")
    (weight_of weights "languages") (weight_of weights "description").

(** The result [r] with its echo of the weights replaced. *)
Definition with_weights (weights : gmap string Q) (r : Matching.match_result)
    : Matching.match_result :=
  {| Matching.score := Matching.score r;
     Matching.hard_required_coverage := Matching.hard_required_coverage r;
     Matching.hard_optional_coverage := Matching.hard_optional_coverage r;
     Matching.soft_coverage := Matching.soft_coverage r;
     Matching.languages_required_coverage :=
       Matching.languages_required_coverage r;
     Matching.description_similarity := Matching.description_similarity r;
     Matching.hard_required_missing := Matching.hard_required_missing r;
     Matching.hard_optional_missing := Matching.hard_optional_missing r;
     Matching.soft_skills_missing := Matching.soft_skills_missing r;
     Matching.languages_required_missing :=
       Matching.languages_required_missing r;
     Matching.languages_optional_missing :=
       Matching.languages_optional_missing r;
     Matching.used_semantic_skills := Matching.used_semantic_skills r;
     Matching.skill_threshold_used := Matching.skill_threshold_used r;
     Matching.used_description_semantic := Matching.used_description_semantic r;
     Matching.weights_used := weights |}.

(** [a] does not sort below [b] under the three-level key (score,
    hard_required_coverage, description_similarity). *)
Definition key_ge (a b : Matching.row) : Prop :=
  let ma := Matching.m a in
  let mb := Matching.m b in
  (Matching.score mb < Matching.score ma)%Q
  \/ ((Matching.score ma == Matching.score mb)%Q
      /\ ((Matching.hard_required_coverage mb
           < Matching.hard_required_coverage ma)%Q
          \/ ((Matching.hard_required_coverage ma
               == Matching.hard_required_coverage mb)%Q
              /\ (Matching.description_similarity mb
                  <= Matching.description_similarity ma)%Q))).

(** The rows of a frame reach [min_score]. *)
Definition reaches (min_score : Q) (r : Matching.row) : Prop :=
  (min_score <= Matching.score (Matching.m r))%Q.

(** The first of the recognised keys, in the order [match_cv_job] reads
    them, that [weights] does not hold. *)
Definition first_missing (weights : gmap string Q) : option string :=
  List.find (fun k => match weights !! k with Some _ => false | None => true end)
            recognized.

(** The dictionary of the fallback for a category, when the fallback ran. *)
Definition resolved_detail (cos_sim : string -> string -> Q)
    (use_semantic_skills : bool) (skill_threshold : Q) (c : category)
    (cv job : gmap string pyval) : option overlap :=
  (Matching.fallback cos_sim use_semantic_skills c
     (Matching.norm_list (get cv (cv_field c)))
     (Matching.norm_list (get job (job_field c)))
     (Matching.to_set (get cv (cv_field c)))
     (Matching.to_set (get job (job_field c)))
     (exact_coverage c cv job) skill_threshold).1.2.

(** The row [match_cv_market] of [matching.py] builds for a job and its
    match. *)
Definition row_of (job : gmap string pyval) (r : Matching.match_result)
    : Matching.row :=
  {| Matching.job_title := get_or job "title" (PStr "");
     Matching.company := get_or job "company" (PStr "");
     Matching.location := get_or job "location" (PStr "");
     Matching.source := get_or job "source" (PStr "");
     Matching.url := get_or job "url" (PStr "");
     Matching.m := r |}.

(** The batches of a call. *)
Definition batches (c : call) : list (list string) :=
  match c with
  | OverlapCall _ encoded => encoded
  | SimilarityCall encoded => encoded
  end.

(** The coverage and the missing list the result reports for a category;
    optional languages have a missing list only. *)
Definition reported_coverage (c : category) (r : Matching.match_result)
    : option Q :=
  match c with
  | HardRequired => Some (Matching.hard_required_coverage r)
  | HardOptional => Some (Matching.hard_optional_coverage r)
  | Soft => Some (Matching.soft_coverage r)
  | LanguagesRequired => Some (Matching.languages_required_coverage r)
  | LanguagesOptional => None
  end.

Definition reported_missing (c : category) (r : Matching.match_result)
    : list string :=
  match c with
  | HardRequired => Matching.hard_required_missing r
  | HardOptional => Matching.hard_optional_missing r
  | Soft => Matching.soft_skills_missing r
  | LanguagesRequired => Matching.languages_required_missing r
  | LanguagesOptional => Matching.languages_optional_missing r
  end.


(** A string made of whitespace only. *)
Fixpoint all_space (s : string) : bool :=
  match s with
  | EmptyString => true
  | String c r => Str.isspace c && all_space r
  end.

(** A field that [parse_fields] returns unchanged: non-empty, trimmed,
    without comma. *)
Definition plain_field (t : string) : bool :=
  truthy_str t && Str.trimmed t && negb (App.has_comma t).

(** The fields [match_cv_job] reads in the job and in the CV. *)
Definition job_keys : list string :=
  ["skills_hard_required"; "skills_hard_optional"; "skills_soft";
   "languages_required"; "languages_optional"; "description"].

Definition cv_keys : list string :=
  ["skills_hard"; "skills_soft"; "languages"; "text"].

(** * Properties *)

(** ** Characters *)

Ltac each_char c :=
  destruct c as [[] [] [] [] [] [] [] []]; vm_compute; try reflexivity;
  try discriminate.

Lemma isspace_space : Str.isspace " " = true.
Proof. reflexivity. Qed.

Lemma isupper_space : Str.isupper " " = false.
Proof. reflexivity. Qed.

Lemma lower_char_isspace c : Str.isspace (Str.lower_char c) = Str.isspace c.
Proof. each_char c. Qed.

Lemma lower_char_isupper c : Str.isupper (Str.lower_char c) = false.
Proof. each_char c. Qed.

Lemma lower_char_fixed c : Str.isupper c = false -> Str.lower_char c = c.
Proof. unfold Str.lower_char. intros ->. reflexivity. Qed.

(** ** [strip], [lower] and [sub_ws] establish the canonical form *)

Lemma ends_space_cons c r :
  Str.ends_space (String c r) =
  match r with EmptyString => Str.isspace c | _ => Str.ends_space r end.
Proof. destruct r; reflexivity. Qed.

Lemma lstrip_starts s : Str.starts_space (Str.lstrip s) = false.
Proof.
  induction s as [|c r IH]; simpl; [reflexivity|].
  destruct (Str.isspace c) eqn:E; [assumption|]. simpl. exact E.
Qed.

Lemma rstrip_ends s : Str.ends_space (Str.rstrip s) = false.
Proof.
  induction s as [|c r IH]; simpl; [reflexivity|].
  destruct (Str.rstrip r) as [|c' r'] eqn:E.
  - destruct (Str.isspace c) eqn:Ec; simpl; [reflexivity | exact Ec].
  - rewrite ends_space_cons. exact IH.
Qed.

Lemma rstrip_starts s :
  Str.starts_space s = false -> Str.starts_space (Str.rstrip s) = false.
Proof.
  destruct s as [|c r]; simpl; [reflexivity|]. intros Ec.
  destruct (Str.rstrip r); [rewrite Ec|]; simpl; exact Ec.
Qed.

Lemma lower_empty s : Str.lower s = EmptyString -> s = EmptyString.
Proof. destruct s; simpl; [reflexivity | discriminate]. Qed.

Lemma lower_starts s : Str.starts_space (Str.lower s) = Str.starts_space s.
Proof. destruct s; simpl; [reflexivity | apply lower_char_isspace]. Qed.

Lemma lower_ends s : Str.ends_space (Str.lower s) = Str.ends_space s.
Proof.
  induction s as [|c r IH]; [reflexivity|].
  simpl Str.lower. rewrite !ends_space_cons.
  destruct r as [|c' r']; [apply lower_char_isspace | exact IH].
Qed.

Lemma lower_no_upper s : Str.no_upper (Str.lower s) = true.
Proof.
  induction s as [|c r IH]; simpl; [reflexivity|].
  rewrite lower_char_isupper, IH. reflexivity.
Qed.

Lemma sub_ws_from_true_starts s :
  Str.starts_space (Str.sub_ws_from true s) = false.
Proof.
  induction s as [|c r IH]; simpl; [reflexivity|].
  destruct (Str.isspace c) eqn:E; [exact IH | simpl; exact E].
Qed.

Lemma sub_ws_from_starts s :
  Str.starts_space (Str.sub_ws_from false s) = Str.starts_space s.
Proof.
  destruct s as [|c r]; simpl; [reflexivity|].
  destruct (Str.isspace c) eqn:E; simpl; [reflexivity | exact E].
Qed.

Lemma sub_ws_from_single b s :
  Str.single_spaced (Str.sub_ws_from b s) = true.
Proof.
  revert b. induction s as [|c r IH]; intros b; simpl; [reflexivity|].
  destruct (Str.isspace c) eqn:E.
  - destruct b; [apply IH|].
    simpl. rewrite sub_ws_from_true_starts, IH. reflexivity.
  - simpl. rewrite E, IH. reflexivity.
Qed.

Lemma sub_ws_from_no_upper b s :
  Str.no_upper s = true -> Str.no_upper (Str.sub_ws_from b s) = true.
Proof.
  revert b. induction s as [|c r IH]; intros b; simpl; [reflexivity|].
  intros H. apply andb_prop in H as [Hc Hr].
  destruct (Str.isspace c).
  - destruct b; [apply IH, Hr|]. simpl. apply IH, Hr.
  - simpl. rewrite Hc. apply IH, Hr.
Qed.

Lemma sub_ws_from_nonempty b s :
  Str.ends_space s = false -> s <> EmptyString ->
  Str.sub_ws_from b s <> EmptyString.
Proof.
  revert b. induction s as [|c r IH]; intros b He Hne; [congruence|].
  simpl. rewrite ends_space_cons in He.
  destruct (Str.isspace c) eqn:E; [|discriminate].
  destruct r as [|c' r']; [congruence|].
  destruct b; [|discriminate]. apply IH; [exact He | discriminate].
Qed.

Lemma sub_ws_from_ends b s :
  Str.ends_space s = false -> Str.ends_space (Str.sub_ws_from b s) = false.
Proof.
  revert b. induction s as [|c r IH]; intros b He; [reflexivity|].
  rewrite ends_space_cons in He. simpl.
  destruct (Str.isspace c) eqn:E.
  - destruct r as [|c' r']; [congruence|].
    destruct b; [apply IH, He|].
    rewrite ends_space_cons.
    destruct (Str.sub_ws_from true (String c' r')) eqn:E'.
    + exfalso. revert E'. apply sub_ws_from_nonempty; [exact He | discriminate].
    + rewrite <- E'. apply IH, He.
  - rewrite ends_space_cons.
    destruct r as [|c' r']; [simpl; exact E|].
    destruct (Str.sub_ws_from false (String c' r')) eqn:E'; [exact E|].
    rewrite <- E'. apply IH, He.
Qed.

(** ** Canonical strings are fixed by [strip], [lower] and [sub_ws] *)

Lemma lower_fixed s : Str.no_upper s = true -> Str.lower s = s.
Proof.
  induction s as [|c r IH]; simpl; [reflexivity|].
  intros H. apply andb_prop in H as [Hc Hr].
  apply negb_true_iff in Hc. rewrite lower_char_fixed, IH; auto.
Qed.

Lemma lstrip_fixed s : Str.starts_space s = false -> Str.lstrip s = s.
Proof. destruct s as [|c r]; simpl; [reflexivity|]. intros ->. reflexivity. Qed.

Lemma rstrip_fixed s : Str.ends_space s = false -> Str.rstrip s = s.
Proof.
  induction s as [|c r IH]; [reflexivity|].
  rewrite ends_space_cons. simpl. intros He.
  destruct r as [|c' r']; [simpl; rewrite He; reflexivity|].
  rewrite (IH He). reflexivity.
Qed.

Lemma sub_ws_from_true_unspaced s :
  Str.starts_space s = false ->
  Str.sub_ws_from true s = Str.sub_ws_from false s.
Proof. destruct s as [|c r]; simpl; [reflexivity|]. intros ->. reflexivity. Qed.

Lemma sub_ws_fixed s : Str.single_spaced s = true -> Str.sub_ws s = s.
Proof.
  unfold Str.sub_ws. induction s as [|c r IH]; simpl; [reflexivity|].
  intros H. apply andb_prop in H as [Hc Hr].
  destruct (Str.isspace c) eqn:E.
  - apply andb_prop in Hc as [Hsp Hst].
    apply Ascii.eqb_eq in Hsp. apply negb_true_iff in Hst. subst c.
    rewrite (sub_ws_from_true_unspaced _ Hst), (IH Hr). reflexivity.
  - rewrite (IH Hr). reflexivity.
Qed.

(** ** [norm_text], [norm_list] and [to_set] of [matching.py] *)

Lemma truthy_str_true s : truthy_str s = true <-> s <> EmptyString.
Proof.
  unfold truthy_str. rewrite negb_true_iff.
  destruct (String.eqb_spec s EmptyString); split; congruence.
Qed.

Lemma norm_text_shape x :
  Str.no_upper (Matching.norm_text x) = true
  /\ Str.trimmed (Matching.norm_text x) = true
  /\ Str.single_spaced (Matching.norm_text x) = true.
Proof.
  destruct x as [| | | |s|]; try (repeat split; reflexivity).
  unfold Matching.norm_text, Str.sub_ws, Str.trimmed, Str.strip.
  split; [|split].
  - apply sub_ws_from_no_upper, lower_no_upper.
  - rewrite sub_ws_from_starts, lower_starts.
    rewrite rstrip_starts by apply lstrip_starts.
    rewrite sub_ws_from_ends; [reflexivity|].
    rewrite lower_ends. apply rstrip_ends.
  - apply sub_ws_from_single.
Qed.

Lemma norm_text_fixed s :
  Str.no_upper s = true -> Str.trimmed s = true -> Str.single_spaced s = true ->
  Matching.norm_text (PStr s) = s.
Proof.
  intros Hu Ht Hs. unfold Str.trimmed in Ht.
  apply andb_prop in Ht as [Hst Hen].
  apply negb_true_iff in Hst. apply negb_true_iff in Hen.
  unfold Matching.norm_text, Str.strip.
  rewrite (lstrip_fixed _ Hst), (rstrip_fixed _ Hen), (lower_fixed _ Hu).
  apply sub_ws_fixed, Hs.
Qed.

Lemma canonical_spec s :
  Str.canonical s = true <->
  Str.no_upper s = true /\ Str.trimmed s = true
  /\ Str.single_spaced s = true /\ s <> EmptyString.
Proof.
  unfold Str.canonical. rewrite !andb_true_iff.
  change (negb (String.eqb s EmptyString)) with (truthy_str s).
  rewrite truthy_str_true. tauto.
Qed.

Lemma norm_items_canonical items :
  Forall (fun s => Str.canonical s = true) (Matching.norm_items items).
Proof.
  induction items as [|v r IH]; simpl; [constructor|].
  destruct v as [| | | |s|]; try exact IH.
  destruct (truthy_str _) eqn:E; [|exact IH].
  constructor; [|exact IH].
  apply canonical_spec. apply truthy_str_true in E.
  pose proof (norm_text_shape (PStr s)) as (? & ? & ?). auto.
Qed.

Lemma norm_items_fixed (l : list string) :
  Forall (fun s => Str.canonical s = true) l ->
  Matching.norm_items (PStr <$> l) = l.
Proof.
  induction 1 as [|s l Hs _ IH]; [reflexivity|].
  apply canonical_spec in Hs as (Hu & Ht & Hsp & Hne).
  cbn [fmap list_fmap Matching.norm_items].
  rewrite (norm_text_fixed s Hu Ht Hsp).
  apply truthy_str_true in Hne. rewrite Hne.
  f_equal. exact IH.
Qed.

(** What [matching.py] guarantees for [norm_list] and [to_set]: total
    functions whose items are canonical, empty on anything but a list. *)
Lemma matching_to_set_canonical (x : pyval) :
  Forall (fun s => Str.canonical s = true) (Matching.norm_list x)
  /\ (forall s, s ∈ Matching.to_set x -> Str.canonical s = true)
  /\ ((forall l, x <> PList l) ->
      Matching.norm_list x = [] /\ Matching.to_set x = ∅).
Proof.
  assert (Hl : Forall (fun s => Str.canonical s = true) (Matching.norm_list x)).
  { destruct x; simpl; try constructor. apply norm_items_canonical. }
  split; [exact Hl|]. split.
  - intros s Hs. unfold Matching.to_set in Hs.
    apply elem_of_list_to_set in Hs.
    rewrite Forall_forall in Hl. apply Hl, Hs.
  - intros Hx. unfold Matching.to_set.
    destruct x; try (split; reflexivity). exfalso. eapply Hx. reflexivity.
Qed.

(** C6. [to_set] of [cv_matching.py], documented as converting "safely",
    raises [AttributeError] on a list holding a non-string, and keeps a
    string untrimmed; [matching.py] returns the canonical set on the same
    inputs. *)
Theorem cv_matching_to_set_unsafe :
  CvMatching.to_set (PList [PInt 1]) = Raise (AttributeError "lower")
  /\ CvMatching.to_set (PList [PStr " A "]) = Return {[ " a " ]}
  /\ Str.canonical " a " = false
  /\ Matching.to_set (PList [PInt 1]) = ∅
  /\ Matching.to_set (PList [PStr " A "]) = {[ "a" ]}.
Proof.
  split; [reflexivity|]. split.
  { vm_compute. reflexivity. }
  split; [reflexivity|]. split.
  { reflexivity. }
  vm_compute. reflexivity.
Qed.

(** C9. Normalisation is idempotent: [norm_text] and [norm_list] applied to
    their own output return it unchanged, and [to_set] of a list of
    canonical strings is the set of these strings. *)
Theorem normalization_idempotent :
  (forall x, Matching.norm_text (PStr (Matching.norm_text x))
             = Matching.norm_text x)
  /\ (forall x, Matching.norm_list (PList (PStr <$> Matching.norm_list x))
                = Matching.norm_list x)
  /\ (forall l : list string,
        Forall (fun s => Str.canonical s = true) l ->
        Matching.norm_list (PList (PStr <$> l)) = l
        /\ Matching.to_set (PList (PStr <$> l)) = list_to_set l).
Proof.
  split; [|split].
  - intros x. pose proof (norm_text_shape x) as (Hu & Ht & Hs).
    apply norm_text_fixed; assumption.
  - intros x. simpl. apply norm_items_fixed.
    apply (matching_to_set_canonical x).
  - intros l Hl. unfold Matching.to_set. simpl.
    rewrite (norm_items_fixed l Hl). split; reflexivity.
Qed.

(** [normalization_idempotent] at a padded, mixed-case string. *)
Lemma normalization_idempotent_witness :
  Matching.norm_text (PStr (Matching.norm_text (PStr "  Power   BI ")))
    = "power bi"
  /\ Matching.to_set (PList (PStr <$> ["power bi"; "sql"]))
     = list_to_set ["power bi"; "sql"].
Proof.
  split.
  - rewrite (proj1 normalization_idempotent). reflexivity.
  - apply (proj2 (proj2 normalization_idempotent)).
    repeat constructor.
Defined.

(** ** Exact coverage *)

Lemma size_zero_empty (X : gset string) : size X = 0%nat <-> X = ∅.
Proof. rewrite size_empty_iff. split; [apply leibniz_equiv | intros ->; done]. Qed.

Lemma of_len_ratio (a b : nat) :
  b <> 0%nat ->
  (Num.of_len a / Num.of_len b == Z.of_nat a # Pos.of_nat b)%Q.
Proof.
  intros Hb. unfold Num.of_len, Qdiv, Qinv, inject_Z, Qeq, Qmult. simpl.
  destruct b as [|b]; [congruence|].
  simpl Z.of_nat. simpl Qnum. simpl Qden.
  rewrite Pos.of_nat_succ. lia.
Qed.

Lemma matching_coverage_eq cv_set job_set :
  Matching.coverage cv_set job_set = CvMatching.coverage cv_set job_set.
Proof. reflexivity. Qed.

Lemma coverage_nonempty S R :
  R <> ∅ ->
  (Matching.coverage S R == Z.of_nat (size (S ∩ R)) # Pos.of_nat (size R))%Q.
Proof.
  intros HR. unfold Matching.coverage.
  assert (Hn : size R <> 0%nat) by (rewrite size_zero_empty; exact HR).
  apply Nat.eqb_neq in Hn as Hn'. rewrite Hn'. apply of_len_ratio, Hn.
Qed.

Lemma coverage_bounds S R : (0 <= Matching.coverage S R <= 1)%Q.
Proof.
  destruct (decide (R = ∅)) as [->|HR].
  - unfold Matching.coverage. rewrite size_empty. simpl. split; discriminate.
  - rewrite (coverage_nonempty S R HR).
    assert (Hn : size R <> 0%nat) by (rewrite size_zero_empty; exact HR).
    assert (Hle : (size (S ∩ R) <= size R)%nat).
    { apply subseteq_size. set_solver. }
    unfold Qle. simpl.
    assert (Hp : Z.pos (Pos.of_nat (size R)) = Z.of_nat (size R)).
    { destruct (size R) as [|n]; [congruence|].
      rewrite <- Pos.of_nat_succ. lia. }
    rewrite Hp. split; lia.
Qed.

(** C2. An empty requirement set is covered in full by any candidate set,
    a non-empty requirement set is covered at 0 by the empty candidate set,
    and otherwise the coverage is the size of the intersection over the size
    of the requirement set; in [matching.py] and in [cv_matching.py]. *)
Theorem coverage_spec :
  (forall S : gset string,
      Matching.coverage S ∅ = 1%Q /\ CvMatching.coverage S ∅ = 1%Q)
  /\ (forall R : gset string, R <> ∅ ->
      (Matching.coverage ∅ R == 0)%Q /\ (CvMatching.coverage ∅ R == 0)%Q)
  /\ (forall S R : gset string, R <> ∅ ->
      (Matching.coverage S R == Z.of_nat (size (S ∩ R)) # Pos.of_nat (size R))%Q
      /\ (CvMatching.coverage S R
          == Z.of_nat (size (S ∩ R)) # Pos.of_nat (size R))%Q).
Proof.
  split; [|split].
  - intros S. split; reflexivity.
  - intros R HR.
    assert (H : (Matching.coverage ∅ R == 0)%Q); [|split; exact H].
    rewrite (coverage_nonempty ∅ R HR).
    assert ((∅ : gset string) ∩ R = ∅) as -> by set_solver.
    rewrite size_empty. reflexivity.
  - intros S R HR.
    split; [|rewrite <- (matching_coverage_eq S R)];
      apply coverage_nonempty, HR.
Qed.

(** [coverage_spec] at two small sets. *)
Lemma coverage_spec_witness :
  (Matching.coverage ∅ {[ "sql" ]} == 0)%Q
  /\ (Matching.coverage {[ "sql" ]} {[ "sql"; "python" ]} == 1 # 2)%Q.
Proof.
  assert (H1 : ({[ "sql" ]} : gset string) <> ∅) by (vm_compute; discriminate).
  assert (H2 : ({[ "sql"; "python" ]} : gset string) <> ∅)
    by (vm_compute; discriminate).
  split.
  - apply (proj1 (proj2 coverage_spec) _ H1).
  - rewrite (proj1 (proj2 (proj2 coverage_spec) {[ "sql" ]} _ H2)).
    vm_compute. reflexivity.
Defined.

(** ** Rounding respects numeric equality *)

Lemma round_half_even_comp x y :
  (x == y)%Q -> Num.round_half_even x = Num.round_half_even y.
Proof.
  intros H. unfold Num.round_half_even.
  rewrite (Qfloor_comp _ _ H).
  assert (Hc : (2 * (x - inject_Z (Qfloor y)) ?= 1)%Q
               = (2 * (y - inject_Z (Qfloor y)) ?= 1)%Q).
  { apply Qcompare_comp; [rewrite H|]; reflexivity. }
  rewrite Hc. reflexivity.
Qed.

Lemma fl_comp x y : (x == y)%Q -> Num.fl x = Num.fl y.
Proof. intros H. unfold Num.fl. rewrite (Qred_complete _ _ H). reflexivity. Qed.

Lemma round_comp x y n : (x == y)%Q -> Num.round x n = Num.round y n.
Proof. intros H. unfold Num.round. rewrite (fl_comp x y H). reflexivity. Qed.

Lemma round_half_even_Z (z : Z) : Num.round_half_even (inject_Z z) = z.
Proof.
  unfold Num.round_half_even. rewrite Qfloor_Z.
  assert (H : (2 * (inject_Z z - inject_Z z) ?= 1)%Q = Lt).
  { apply Qlt_alt.
    assert (E : (2 * (inject_Z z - inject_Z z) == 0)%Q) by ring.
    rewrite E. reflexivity. }
  rewrite H. reflexivity.
Qed.

(** ** The classification loop *)

Lemma classify_filter p items acc_matched acc_missing :
  Semantic.classify p items acc_matched acc_missing
  = (acc_matched ++ List.filter p items,
     acc_missing ++ List.filter (fun j => negb (p j)) items).
Proof.
  revert acc_matched acc_missing.
  induction items as [|j r IH]; intros ma mi; simpl.
  - rewrite !app_nil_r. reflexivity.
  - destruct (p j); simpl; rewrite IH, <- app_assoc; reflexivity.
Qed.

Lemma filter_split_length {A} (p : A -> bool) (l : list A) :
  (length (List.filter p l) + length (List.filter (fun j => negb (p j)) l)
   = length l)%nat.
Proof.
  induction l as [|a l IH]; simpl; [reflexivity|].
  destruct (p a); simpl; lia.
Qed.

Lemma filter_split_exclusive {A} (p : A -> bool) (l : list A) (x : A) :
  (In x l <-> In x (List.filter p l) \/ In x (List.filter (fun j => negb (p j)) l))
  /\ ~ (In x (List.filter p l) /\ In x (List.filter (fun j => negb (p j)) l)).
Proof.
  rewrite !filter_In. split.
  - destruct (p x) eqn:E; simpl; intuition congruence.
  - intros [[_ H1] [_ H2]]. rewrite H1 in H2. discriminate.
Qed.

Lemma partitions_intro (p : string -> bool) J c :
  (c == Num.round (Num.of_len (length (List.filter p J))
                   / Num.of_len (length J)) 2)%Q ->
  partitions J (Overlap (List.filter p J)
                        (List.filter (fun j => negb (p j)) J) c).
Proof.
  intros Hc. unfold partitions. simpl.
  split; [exists p; split; reflexivity|].
  split; [intros x; apply filter_split_exclusive|].
  split; [intros x; apply filter_split_exclusive|].
  split; [apply filter_split_length | exact Hc].
Qed.

Lemma filter_none {A} (l : list A) : List.filter (fun _ => false) l = [].
Proof. induction l; simpl; auto. Qed.

Lemma filter_all {A} (l : list A) : List.filter (fun _ => negb false) l = l.
Proof. induction l; simpl; f_equal; auto. Qed.

Lemma partitions_none J : partitions J (Overlap [] J 0).
Proof.
  pose proof (partitions_intro (fun _ => false) J 0) as H.
  rewrite filter_none, filter_all in H. apply H.
  simpl. unfold Num.of_len at 1. simpl.
  rewrite (round_comp _ (inject_Z 0)).
  - unfold Num.round. rewrite round_half_even_comp with (y := inject_Z 0).
    + rewrite round_half_even_Z. reflexivity.
    + reflexivity.
  - unfold Qdiv. apply Qmult_0_l.
Qed.

(** ** [semantic_overlap] *)

Section Overlap.
Variable cos_sim : string -> string -> Q.

(** What [matching.py] returns on the two degenerate inputs. *)
Lemma matching_semantic_overlap_degenerate cv_items job_items threshold :
  (Matching.norm_items job_items = [] ->
   Matching.semantic_overlap cos_sim cv_items job_items threshold
   = (Overlap [] [] 1, []))
  /\ (Matching.norm_items cv_items = [] ->
      Matching.norm_items job_items <> [] ->
      Matching.semantic_overlap cos_sim cv_items job_items threshold
      = (Overlap [] (Matching.norm_items job_items) 0, [])).
Proof.
  unfold Matching.semantic_overlap. split.
  - intros ->. reflexivity.
  - intros -> Hj. destruct (Matching.norm_items job_items); [congruence|].
    reflexivity.
Qed.

Lemma matching_semantic_overlap_partitions cv_items job_items threshold :
  Matching.norm_items job_items <> [] ->
  partitions (Matching.norm_items job_items)
    (Matching.semantic_overlap cos_sim cv_items job_items threshold).1.
Proof.
  intros Hj. unfold Matching.semantic_overlap.
  destruct (Matching.norm_items job_items) as [|j J] eqn:EJ; [congruence|].
  cbn [truthy_list negb].
  destruct (Matching.norm_items cv_items) as [|cv0 cvs].
  - apply partitions_none.
  - rewrite classify_filter. cbn [app fst].
    apply partitions_intro. reflexivity.
Qed.

Lemma legacy_semantic_overlap_partitions cv_skills job_skills threshold :
  job_skills <> [] ->
  partitions job_skills
    (SemanticMatching.semantic_overlap cos_sim cv_skills job_skills threshold).
Proof.
  intros Hj. unfold SemanticMatching.semantic_overlap.
  destruct cv_skills as [|cv0 cvs]; [apply partitions_none|].
  destruct job_skills as [|j J]; [congruence|].
  cbn [truthy_list negb].
  rewrite classify_filter. cbn [app].
  apply partitions_intro. reflexivity.
Qed.

(** C3. With an empty job list, [semantic_overlap] of
    [semantic_matching.py] reports coverage 0.0 where [matching.py], on the
    same input, reports the coverage 1.0 of a vacuous requirement. *)
Theorem semantic_matching_empty_job_zero (cv_skills : list string) (threshold : Q) :
  SemanticMatching.semantic_overlap cos_sim cv_skills [] threshold
  = Overlap [] [] 0
  /\ Matching.semantic_overlap cos_sim (PStr <$> cv_skills) [] threshold
     = (Overlap [] [] 1, []).
Proof.
  split; [|reflexivity].
  unfold SemanticMatching.semantic_overlap.
  destruct cv_skills; reflexivity.
Qed.

(** C10. For a non-empty list of job items, [matched] and [missing] are the
    two complementary order-preserving selections of that list, so that each
    item occurs in exactly one of them, and the coverage is
    [round(len(matched) / len(job_items), 2)], Python's rounding of the
    double that the division returns.  The list is
    the normalised one in [matching.py] and the one received in
    [semantic_matching.py], which does not normalise. *)
Theorem semantic_overlap_partitions :
  (forall cv_items job_items threshold,
      Matching.norm_items job_items <> [] ->
      partitions (Matching.norm_items job_items)
        (Matching.semantic_overlap cos_sim cv_items job_items threshold).1)
  /\ (forall cv_skills job_skills threshold,
      job_skills <> [] ->
      partitions job_skills
        (SemanticMatching.semantic_overlap cos_sim cv_skills job_skills threshold)).
Proof.
  split.
  - apply matching_semantic_overlap_partitions.
  - apply legacy_semantic_overlap_partitions.
Qed.

End Overlap.

(** [semantic_overlap_partitions] at an exact-match similarity. *)
Lemma semantic_overlap_partitions_witness :
  partitions ["sql"; "java"]
    (Matching.semantic_overlap
       (fun a b => if String.eqb a b then 1 else 0)%Q
       [PStr "SQL"] [PStr " sql"; PInt 7; PStr "Java "] (75 # 100)).1.
Proof.
  apply (proj1 (semantic_overlap_partitions _) [PStr "SQL"]
           [PStr " sql"; PInt 7; PStr "Java "] (75 # 100)).
  vm_compute. discriminate.
Defined.

(** One job item matched out of forty: the quotient is the double nearest
    to 0.025, which lies above it, and the coverage returned is 0.03. *)
Lemma semantic_overlap_one_of_forty :
  cov (Matching.semantic_overlap
         (fun a b => if String.eqb a b then 1 else 0)%Q
         [PStr "a"]
         (List.map (fun k => PStr (Nat.iter k (String "a") EmptyString))
            (List.seq 1 40))
         (75 # 100)).1
  = 3 # 100.
Proof. vm_compute. reflexivity. Qed.

(** ** When the semantic fallback runs *)

Lemma missing_iff_incomplete (C J : gset string) :
  (0 < size (J ∖ C))%nat <-> (Matching.coverage C J < 1)%Q.
Proof.
  destruct (decide (J = ∅)) as [->|HJ].
  - assert ((∅ : gset string) ∖ C = ∅) as -> by set_solver.
    unfold Matching.coverage. rewrite size_empty. simpl.
    split; [lia | intros H; apply Qlt_irrefl in H; contradiction].
  - rewrite (coverage_nonempty C J HJ).
    assert (Hn : size J <> 0%nat) by (rewrite size_zero_empty; exact HJ).
    assert (Hle : (size (C ∩ J) <= size J)%nat).
    { apply subseteq_size. set_solver. }
    assert (Hp : Z.pos (Pos.of_nat (size J)) = Z.of_nat (size J)).
    { destruct (size J) as [|n]; [congruence|].
      rewrite <- Pos.of_nat_succ. lia. }
    assert (Hd : size (J ∖ C) = (size J - size (J ∩ C))%nat)
      by apply size_difference_alt.
    assert (J ∩ C = C ∩ J) as Hc by set_solver. rewrite Hc in Hd.
    unfold Qlt. simpl. rewrite Hp. lia.
Qed.

Section Fallback.
Variable cos_sim : string -> string -> Q.

Lemma fallback_calls use c cvl jl (C J : gset string) exact thr c' enc :
  In (OverlapCall c' enc)
     (Matching.fallback cos_sim use c cvl jl C J exact thr).2
  <-> c' = c /\ use = true /\ jl <> [] /\ (0 < size (J ∖ C))%nat
      /\ enc = (Matching.semantic_overlap cos_sim (PStr <$> cvl)
                  (PStr <$> jl) thr).2.
Proof.
  unfold Matching.fallback.
  destruct use; cbn [andb].
  2:{ simpl. split; [tauto | intros (_ & H & _); discriminate]. }
  destruct jl as [|j jl]; cbn [truthy_list andb].
  { simpl. split; [tauto | intros (_ & _ & H & _); congruence]. }
  destruct (0 <? size (J ∖ C))%nat eqn:E.
  - apply Nat.ltb_lt in E.
    destruct (Matching.semantic_overlap _ _ _ _) as [d e]. simpl.
    split.
    + intros [H|[]]. inversion H; subst. repeat split; auto.
    + intros (-> & _ & _ & _ & ->). left. reflexivity.
  - apply Nat.ltb_ge in E. simpl.
    split; [tauto | intros (_ & _ & _ & H & _); lia].
Qed.

Lemma match_cv_job_calls cv job use thr use_desc weights :
  exists desc_calls,
    (Matching.match_cv_job cos_sim cv job use thr use_desc weights).1
    = (Matching.fallback cos_sim use HardRequired
         (Matching.norm_list (get cv "skills_hard"))
         (Matching.norm_list (get job "skills_hard_required"))
         (Matching.to_set (get cv "skills_hard"))
         (Matching.to_set (get job "skills_hard_required"))
         (exact_coverage HardRequired cv job) thr).2
      ++ (Matching.fallback cos_sim use HardOptional
            (Matching.norm_list (get cv "skills_hard"))
            (Matching.norm_list (get job "skills_hard_optional"))
            (Matching.to_set (get cv "skills_hard"))
            (Matching.to_set (get job "skills_hard_optional"))
            (exact_coverage HardOptional cv job) thr).2
      ++ (Matching.fallback cos_sim use LanguagesRequired
            (Matching.norm_list (get cv "languages"))
            (Matching.norm_list (get job "languages_required"))
            (Matching.to_set (get cv "languages"))
            (Matching.to_set (get job "languages_required"))
            (exact_coverage LanguagesRequired cv job) thr).2
      ++ desc_calls
    /\ forall c enc, ~ In (OverlapCall c enc) desc_calls.
Proof.
  unfold Matching.match_cv_job, exact_coverage, Matching.to_set. simpl.
  destruct (Matching.fallback cos_sim use HardRequired _ _ _ _ _ _)
    as [[v1 d1] c1].
  destruct (Matching.fallback cos_sim use HardOptional _ _ _ _ _ _)
    as [[v2 d2] c2].
  destruct (Matching.fallback cos_sim use LanguagesRequired _ _ _ _ _ _)
    as [[v3 d3] c3].
  destruct use_desc.
  - destruct (Matching.semantic_similarity_text _ _ _) as [sim e]. simpl.
    eexists. split; [reflexivity|].
    intros c enc [H|[]]. discriminate.
  - simpl. exists []. split; [reflexivity|]. intros c enc [].
Qed.

End Fallback.

(** C4. [match_cv_job] calls [semantic_overlap] for a category exactly when
    [use_semantic_skills] is set, the category is one of hard-required,
    hard-optional and required languages, the job lists an item for it, and
    the exact coverage of the category is below 1.0; so never at exact
    coverage 1.0, and never for soft skills or optional languages. *)
Theorem semantic_fallback_only_when_incomplete
    (cos_sim : string -> string -> Q) (cv job : gmap string pyval)
    (use_semantic_skills : bool) (skill_threshold : Q)
    (use_description_semantic : bool) (weights : option (gmap string Q))
    (c : category) :
  (exists encoded,
      In (OverlapCall c encoded)
         (Matching.match_cv_job cos_sim cv job use_semantic_skills
            skill_threshold use_description_semantic weights).1)
  <-> use_semantic_skills = true
      /\ eligible c = true
      /\ Matching.norm_list (get job (job_field c)) <> []
      /\ (exact_coverage c cv job < 1)%Q.
Proof.
  destruct (match_cv_job_calls cos_sim cv job use_semantic_skills
              skill_threshold use_description_semantic weights)
    as (dc & -> & Hdc).
  unfold exact_coverage at 4.
  rewrite <- missing_iff_incomplete.
  split.
  - intros [enc H].
    rewrite !in_app_iff, !fallback_calls in H.
    destruct H as [H|[H|[H|H]]]; [| | |exfalso; eapply Hdc; exact H];
      destruct H as (-> & Hu & Hj & Hs & _); repeat split; assumption.
  - intros (Hu & He & Hj & Hs).
    destruct c; try discriminate He;
      eexists; rewrite !in_app_iff, !fallback_calls.
    + left. repeat split; try eassumption; reflexivity.
    + right. left. repeat split; try eassumption; reflexivity.
    + right. right. left. repeat split; try eassumption; reflexivity.
Qed.

(** ** Rounding to an integer is monotone *)

Lemma round_half_even_range x :
  Qfloor x <= Num.round_half_even x <= Qfloor x + 1.
Proof.
  unfold Num.round_half_even.
  destruct (2 * (x - inject_Z (Qfloor x)) ?= 1)%Q; [|lia|lia].
  destruct (Z.even (Qfloor x)); lia.
Qed.

Lemma round_half_even_mono x y :
  (x <= y)%Q -> Num.round_half_even x <= Num.round_half_even y.
Proof.
  intros Hxy.
  pose proof (Qfloor_resp_le _ _ Hxy) as Hf.
  pose proof (round_half_even_range x) as Hx.
  pose proof (round_half_even_range y) as Hy.
  destruct (Z.eq_dec (Qfloor x) (Qfloor y)) as [E|NE]; [|lia].
  clear Hx Hy Hf. unfold Num.round_half_even. rewrite E.
  destruct (Qcompare_spec (2 * (x - inject_Z (Qfloor y))) 1) as [Hx|Hx|Hx];
  destruct (Qcompare_spec (2 * (y - inject_Z (Qfloor y))) 1) as [Hy|Hy|Hy];
    try (destruct (Z.even (Qfloor y)); lia); try lia;
    exfalso; lra.
Qed.

(** ** The nearest double is monotone *)

Lemma pow2_pos e : (0 < 2 ^ e)%Q.
Proof. apply Qpower_0_lt. reflexivity. Qed.

Lemma pow2_plus a b : (2 ^ (a + b) == 2 ^ a * 2 ^ b)%Q.
Proof. apply Qpower_plus. discriminate. Qed.

Lemma pow2_le a b : a <= b -> (2 ^ a <= 2 ^ b)%Q.
Proof. intros H. apply Qpower_le_compat_l; [exact H | discriminate]. Qed.

Lemma pow2_lt_inv a b : (2 ^ a < 2 ^ b)%Q -> a < b.
Proof. intros H. apply (Qpower_lt_compat_l_inv 2); [exact H | reflexivity]. Qed.

Lemma pow2_inject n : 0 <= n -> (inject_Z (2 ^ n) == 2 ^ n)%Q.
Proof. intros H. apply (Zpower_Qpower 2 n H). Qed.

Lemma ilog2_spec x :
  (0 < x)%Q -> (2 ^ Num.ilog2 x <= x)%Q /\ (x < 2 ^ (Num.ilog2 x + 1))%Q.
Proof.
  intros Hx. destruct x as [a b]. unfold Num.ilog2. cbn [Qnum Qden].
  assert (Ha : 0 < a) by (unfold Qlt in Hx; simpl in Hx; lia).
  set (n := Z.log2 (Z.pos b) + 1).
  assert (Hn : 0 <= n) by (pose proof (Z.log2_nonneg (Z.pos b)); lia).
  assert (Hb : Z.pos b < 2 ^ n).
  { unfold n. apply Z.log2_spec. lia. }
  set (q := a * 2 ^ n / Z.pos b).
  assert (Hdiv : Z.pos b * q <= a * 2 ^ n < Z.pos b * (q + 1)).
  { unfold q. pose proof (Z.mul_div_le (a * 2 ^ n) (Z.pos b) ltac:(lia)).
    pose proof (Z.mul_succ_div_gt (a * 2 ^ n) (Z.pos b) ltac:(lia)). lia. }
  assert (Hq : 0 < q).
  { assert (2 ^ n <= a * 2 ^ n) by nia. nia. }
  pose proof (Z.log2_spec q Hq) as [HL1 HL2].
  pose proof (Z.log2_nonneg q) as HL0.
  set (L := Z.log2 q) in *.
  assert (E1 : (2 ^ (L - n) == inject_Z (2 ^ L) / inject_Z (2 ^ n))%Q).
  { rewrite !pow2_inject by lia. apply Qpower_minus. discriminate. }
  assert (E2 : (2 ^ (L - n + 1) == inject_Z (2 ^ (L + 1)) / inject_Z (2 ^ n))%Q).
  { rewrite !pow2_inject by lia.
    replace (L - n + 1) with ((L + 1) - n) by lia.
    apply Qpower_minus. discriminate. }
  assert (Hpn : 0 < 2 ^ n) by (apply Z.pow_pos_nonneg; lia).
  replace (Z.succ L) with (L + 1) in HL2 by lia.
  rewrite E1, E2. split.
  - apply Qle_shift_div_r; [unfold Qlt; simpl; lia|].
    unfold Qle, Qmult, inject_Z. simpl. nia.
  - apply Qlt_shift_div_l; [unfold Qlt; simpl; lia|].
    unfold Qlt, Qmult, inject_Z. simpl. nia.
Qed.

Lemma ilog2_mono x y : (0 < x)%Q -> (x <= y)%Q -> Num.ilog2 x <= Num.ilog2 y.
Proof.
  intros Hx Hxy.
  assert (Hy : (0 < y)%Q) by (eapply Qlt_le_trans; eassumption).
  destruct (ilog2_spec x Hx) as [Hx1 _].
  destruct (ilog2_spec y Hy) as [_ Hy2].
  assert (H : (2 ^ Num.ilog2 x < 2 ^ (Num.ilog2 y + 1))%Q).
  { eapply Qle_lt_trans; [exact Hx1|]. eapply Qle_lt_trans; eassumption. }
  apply pow2_lt_inv in H. lia.
Qed.

Lemma scaled_bounds x :
  (0 < x)%Q ->
  (inject_Z (2 ^ 52) <= x * 2 ^ (- (Num.ilog2 x - 52)))%Q
  /\ (x * 2 ^ (- (Num.ilog2 x - 52)) <= inject_Z (2 ^ 53))%Q.
Proof.
  intros Hx. destruct (ilog2_spec x Hx) as [H1 H2].
  set (k := Num.ilog2 x) in *.
  pose proof (pow2_pos (- (k - 52))) as Hp.
  rewrite !pow2_inject by lia.
  assert (E1 : (2 ^ 52 == 2 ^ k * 2 ^ (- (k - 52)))%Q).
  { rewrite <- pow2_plus. replace (k + - (k - 52)) with 52 by lia. reflexivity. }
  assert (E2 : (2 ^ 53 == 2 ^ (k + 1) * 2 ^ (- (k - 52)))%Q).
  { rewrite <- pow2_plus. replace (k + 1 + - (k - 52)) with 53 by lia.
    reflexivity. }
  rewrite E1, E2. split.
  - apply Qmult_le_compat_r; [exact H1 | apply Qlt_le_weak, Hp].
  - apply Qmult_le_compat_r; [apply Qlt_le_weak, H2 | apply Qlt_le_weak, Hp].
Qed.

Lemma fl_pos_bounds x :
  (0 < x)%Q ->
  (2 ^ Num.ilog2 x <= Num.fl_pos x)%Q /\ (Num.fl_pos x <= 2 ^ (Num.ilog2 x + 1))%Q.
Proof.
  intros Hx. destruct (scaled_bounds x Hx) as [H1 H2]. unfold Num.fl_pos.
  set (k := Num.ilog2 x) in *.
  set (m := (x * 2 ^ (- (k - 52)))%Q) in *.
  apply round_half_even_mono in H1. apply round_half_even_mono in H2.
  rewrite round_half_even_Z in H1, H2.
  pose proof (pow2_pos (k - 52)) as Hp.
  assert (E1 : (2 ^ k == inject_Z (2 ^ 52) * 2 ^ (k - 52))%Q).
  { rewrite pow2_inject by lia. rewrite <- pow2_plus.
    replace (52 + (k - 52)) with k by lia. reflexivity. }
  assert (E2 : (2 ^ (k + 1) == inject_Z (2 ^ 53) * 2 ^ (k - 52))%Q).
  { rewrite pow2_inject by lia. rewrite <- pow2_plus.
    replace (53 + (k - 52)) with (k + 1) by lia. reflexivity. }
  rewrite E1, E2. split.
  - apply Qmult_le_compat_r; [|apply Qlt_le_weak, Hp].
    rewrite <- Zle_Qle. exact H1.
  - apply Qmult_le_compat_r; [|apply Qlt_le_weak, Hp].
    rewrite <- Zle_Qle. exact H2.
Qed.

Lemma fl_pos_mono x y : (0 < x)%Q -> (x <= y)%Q -> (Num.fl_pos x <= Num.fl_pos y)%Q.
Proof.
  intros Hx Hxy.
  assert (Hy : (0 < y)%Q) by (eapply Qlt_le_trans; eassumption).
  pose proof (ilog2_mono x y Hx Hxy) as Hk.
  destruct (Z.eq_dec (Num.ilog2 x) (Num.ilog2 y)) as [E|NE].
  - unfold Num.fl_pos. rewrite E.
    pose proof (pow2_pos (Num.ilog2 y - 52)) as Hp.
    pose proof (pow2_pos (- (Num.ilog2 y - 52))) as Hp'.
    apply Qmult_le_compat_r; [|apply Qlt_le_weak, Hp].
    rewrite <- Zle_Qle. apply round_half_even_mono.
    apply Qmult_le_compat_r; [exact Hxy | apply Qlt_le_weak, Hp'].
  - destruct (fl_pos_bounds x Hx) as [_ Hx2].
    destruct (fl_pos_bounds y Hy) as [Hy1 _].
    eapply Qle_trans; [exact Hx2|]. eapply Qle_trans; [|exact Hy1].
    apply pow2_le. lia.
Qed.

Lemma fl_pos_positive x : (0 < x)%Q -> (0 < Num.fl_pos x)%Q.
Proof.
  intros Hx. destruct (fl_pos_bounds x Hx) as [H _].
  eapply Qlt_le_trans; [apply pow2_pos | exact H].
Qed.

Lemma fl_of_pos x : (0 < x)%Q -> Num.fl x = Num.fl_pos (Qred x).
Proof.
  intros Hx. unfold Num.fl.
  assert (H : (0 < Qred x)%Q) by (rewrite Qred_correct; exact Hx).
  destruct (Qred x) as [a b]. unfold Qlt in H. simpl in H. cbn [Qnum].
  destruct a; [lia | reflexivity | lia].
Qed.

Lemma fl_zero x : (x == 0)%Q -> Num.fl x = 0%Q.
Proof.
  intros Hx. unfold Num.fl. rewrite (Qred_complete _ _ Hx). reflexivity.
Qed.

Lemma fl_of_neg x : (x < 0)%Q -> Num.fl x = (- Num.fl_pos (- Qred x))%Q.
Proof.
  intros Hx. unfold Num.fl.
  assert (H : (Qred x < 0)%Q) by (rewrite Qred_correct; exact Hx).
  destruct (Qred x) as [a b]. unfold Qlt in H. simpl in H. cbn [Qnum].
  destruct a; [lia | lia | reflexivity].
Qed.

Lemma fl_sign x :
  ((0 < x)%Q /\ (0 < Num.fl x)%Q) \/ ((x == 0)%Q /\ Num.fl x = 0%Q)
  \/ ((x < 0)%Q /\ (Num.fl x < 0)%Q).
Proof.
  destruct (Q_dec x 0) as [[H|H]|H].
  - right. right. split; [exact H|]. rewrite (fl_of_neg x H).
    assert (Hp : (0 < - Qred x)%Q) by (rewrite Qred_correct; lra).
    pose proof (fl_pos_positive _ Hp). lra.
  - left. split; [exact H|]. rewrite (fl_of_pos x H).
    apply fl_pos_positive. rewrite Qred_correct. exact H.
  - right. left. split; [exact H | apply fl_zero, H].
Qed.

Lemma fl_mono x y : (x <= y)%Q -> (Num.fl x <= Num.fl y)%Q.
Proof.
  intros Hxy.
  destruct (fl_sign x) as [[Hx Fx]|[[Hx Fx]|[Hx Fx]]];
  destruct (fl_sign y) as [[Hy Fy]|[[Hy Fy]|[Hy Fy]]];
    try (exfalso; lra); try (rewrite ?Fx, ?Fy; lra).
  - rewrite (fl_of_pos x Hx), (fl_of_pos y Hy).
    apply fl_pos_mono; rewrite !Qred_correct; assumption.
  - rewrite (fl_of_neg x Hx), (fl_of_neg y Hy).
    apply Qopp_le_compat. apply fl_pos_mono; rewrite !Qred_correct; lra.
Qed.

Lemma ilog2_unique x j :
  (2 ^ j <= x)%Q -> (x < 2 ^ (j + 1))%Q -> Num.ilog2 x = j.
Proof.
  intros H1 H2.
  assert (Hx : (0 < x)%Q) by (eapply Qlt_le_trans; [apply pow2_pos | exact H1]).
  destruct (ilog2_spec x Hx) as [S1 S2].
  assert (A : (2 ^ j < 2 ^ (Num.ilog2 x + 1))%Q) by (eapply Qle_lt_trans; eassumption).
  assert (B : (2 ^ Num.ilog2 x < 2 ^ (j + 1))%Q) by (eapply Qle_lt_trans; eassumption).
  apply pow2_lt_inv in A. apply pow2_lt_inv in B. lia.
Qed.

Lemma ilog2_comp x y : (0 < x)%Q -> (x == y)%Q -> Num.ilog2 x = Num.ilog2 y.
Proof.
  intros Hx E. destruct (ilog2_spec x Hx) as [S1 S2]. symmetry.
  apply ilog2_unique; rewrite <- E; assumption.
Qed.

Lemma fl_pos_comp x y : (0 < x)%Q -> (x == y)%Q -> Num.fl_pos x = Num.fl_pos y.
Proof.
  intros Hx E. unfold Num.fl_pos. rewrite (ilog2_comp x y Hx E).
  f_equal. f_equal. apply round_half_even_comp. rewrite E. reflexivity.
Qed.

(** A significand of 53 bits times a power of two is a double, and
    [Num.fl] returns doubles, which it fixes. *)
Lemma fl_pos_significand m e :
  2 ^ 52 <= m <= 2 ^ 53 ->
  (Num.fl_pos (inject_Z m * 2 ^ e) == inject_Z m * 2 ^ e)%Q.
Proof.
  intros Hm.
  pose proof (pow2_pos e) as Hp.
  destruct (Z.eq_dec m (2 ^ 53)) as [->|Hne].
  - assert (Ex : (inject_Z (2 ^ 53) * 2 ^ e == 2 ^ (e + 53))%Q).
    { rewrite pow2_inject by lia. rewrite <- pow2_plus.
      replace (53 + e) with (e + 53) by lia. reflexivity. }
    assert (Hk : Num.ilog2 (inject_Z (2 ^ 53) * 2 ^ e) = e + 53).
    { apply ilog2_unique; rewrite Ex; [apply Qle_refl|].
      apply Qpower_lt_compat_l; [lia | reflexivity]. }
    unfold Num.fl_pos. rewrite Hk.
    rewrite (round_half_even_comp _ (inject_Z (2 ^ 52))).
    + rewrite round_half_even_Z. rewrite Ex, pow2_inject by lia.
      rewrite <- pow2_plus. replace (52 + (e + 53 - 52)) with (e + 53) by lia.
      reflexivity.
    + rewrite Ex, <- pow2_plus, pow2_inject by lia.
      replace (e + 53 + - (e + 53 - 52)) with 52 by lia. reflexivity.
  - assert (Hk : Num.ilog2 (inject_Z m * 2 ^ e) = e + 52).
    { apply ilog2_unique.
      - rewrite (pow2_plus e 52), Qmult_comm.
        apply Qmult_le_compat_r; [|apply Qlt_le_weak, Hp].
        rewrite <- pow2_inject by lia. rewrite <- Zle_Qle. lia.
      - replace (e + 52 + 1) with (53 + e) by lia. rewrite (pow2_plus 53 e).
        apply Qmult_lt_compat_r; [exact Hp|].
        rewrite <- pow2_inject by lia. rewrite <- Zlt_Qlt. lia. }
    unfold Num.fl_pos. rewrite Hk.
    replace (e + 52 - 52) with e by lia.
    rewrite (round_half_even_comp _ (inject_Z m)).
    + rewrite round_half_even_Z. reflexivity.
    + rewrite <- Qmult_assoc, <- pow2_plus.
      replace (e + - e) with 0 by lia. simpl. ring.
Qed.

Lemma fl_pos_idempotent x :
  (0 < x)%Q -> (Num.fl_pos (Num.fl_pos x) == Num.fl_pos x)%Q.
Proof.
  intros Hx. destruct (scaled_bounds x Hx) as [H1 H2].
  apply round_half_even_mono in H1. apply round_half_even_mono in H2.
  rewrite round_half_even_Z in H1, H2.
  unfold Num.fl_pos at 2 3. apply fl_pos_significand. lia.
Qed.

Lemma fl_idempotent x : (Num.fl (Num.fl x) == Num.fl x)%Q.
Proof.
  destruct (Q_dec x 0) as [[H|H]|H].
  - rewrite (fl_of_neg x H).
    assert (Hp : (0 < - Qred x)%Q) by (rewrite Qred_correct; lra).
    pose proof (fl_pos_positive _ Hp) as Hq.
    assert (Hn : (- Num.fl_pos (- Qred x) < 0)%Q) by lra.
    rewrite (fl_of_neg _ Hn).
    rewrite <- (fl_pos_comp (Num.fl_pos (- Qred x)) (- Qred (- Num.fl_pos (- Qred x))) Hq).
    + rewrite fl_pos_idempotent by exact Hp. reflexivity.
    + pose proof (Qred_correct (- Num.fl_pos (- Qred x))) as E. lra.
  - rewrite (fl_of_pos x H).
    assert (Hp : (0 < Qred x)%Q) by (rewrite Qred_correct; exact H).
    pose proof (fl_pos_positive _ Hp) as Hq.
    rewrite (fl_of_pos _ Hq).
    rewrite <- (fl_pos_comp (Num.fl_pos (Qred x)) (Qred (Num.fl_pos (Qred x))) Hq).
    + apply fl_pos_idempotent, Hp.
    + symmetry. apply Qred_correct.
  - rewrite (fl_zero x H). reflexivity.
Qed.

Lemma fl_nonneg x : (0 <= x)%Q -> (0 <= Num.fl x)%Q.
Proof. intros H. apply (fl_mono 0 x H). Qed.

Lemma fl_one : (Num.fl 1 == 1)%Q.
Proof. vm_compute. reflexivity. Qed.

Lemma fl_le_one x : (x <= 1)%Q -> (Num.fl x <= 1)%Q.
Proof. intros H. rewrite <- fl_one. apply fl_mono, H. Qed.

(** ** Rounding is monotone and fixes the integers a double holds *)

Lemma round_mono x y n : (x <= y)%Q -> (Num.round x n <= Num.round y n)%Q.
Proof.
  intros Hxy. unfold Num.round, Qle. simpl.
  apply Z.mul_le_mono_nonneg_r; [lia|].
  apply round_half_even_mono.
  apply Qmult_le_compat_r; [apply fl_mono, Hxy|].
  unfold Qle. simpl. lia.
Qed.

Lemma round_Z (z : Z) n :
  (Num.fl (inject_Z z) == inject_Z z)%Q ->
  (Num.round (inject_Z z) n == inject_Z z)%Q.
Proof.
  intros Hz. unfold Num.round.
  rewrite (round_half_even_comp _ (inject_Z (z * Z.pos (Num.pow10 n)))).
  - rewrite round_half_even_Z. unfold Qeq, inject_Z. simpl. lia.
  - rewrite Hz, inject_Z_mult. reflexivity.
Qed.

Lemma round_0 n : (Num.round (inject_Z 0) n == inject_Z 0)%Q.
Proof. apply round_Z. reflexivity. Qed.

Lemma round_1 n : (Num.round (inject_Z 1) n == inject_Z 1)%Q.
Proof. apply round_Z. vm_compute. reflexivity. Qed.

Lemma round_unit_interval x n :
  (0 <= x <= 1)%Q -> (0 <= Num.round x n <= 1)%Q.
Proof.
  intros [H0 H1]. split.
  - apply Qle_trans with (Num.round (inject_Z 0) n);
      [rewrite round_0; apply Qle_refl | apply round_mono, H0].
  - apply Qle_trans with (Num.round (inject_Z 1) n);
      [apply round_mono, H1 | rewrite round_1; apply Qle_refl].
Qed.

(** Python's [round] follows the double, not the exact quotient: 1/40 is
    held as a double just above 0.025 and rounds up, 1/8 is held exactly and
    its tie goes to the even digit. *)
Lemma round_follows_the_double :
  Num.round (1 # 40) 2 = 3 # 100 /\ Num.round (1 # 8) 2 = 12 # 100
  /\ Num.round (5 # 1000) 2 = 1 # 100 /\ Num.round (15 # 1000) 2 = 1 # 100
  /\ Num.round (1 # 3) 2 = 33 # 100 /\ Num.round (2 # 3) 2 = 67 # 100.
Proof. vm_compute. repeat split; reflexivity. Qed.

(** ** Sums and products of floats *)

Lemma fadd_comp a a' b b' :
  (a == a')%Q -> (b == b')%Q -> Num.fadd a b = Num.fadd a' b'.
Proof.
  intros Ha Hb. unfold Num.fadd.
  rewrite (fl_comp a a' Ha), (fl_comp b b' Hb). reflexivity.
Qed.

Lemma fmul_comp a a' b b' :
  (a == a')%Q -> (b == b')%Q -> Num.fmul a b = Num.fmul a' b'.
Proof.
  intros Ha Hb. unfold Num.fmul.
  rewrite (fl_comp a a' Ha), (fl_comp b b' Hb). reflexivity.
Qed.

Lemma fadd_fl a b : Num.fadd a (Num.fl b) = Num.fadd a b.
Proof.
  unfold Num.fadd. apply fl_comp. rewrite (fl_idempotent b). reflexivity.
Qed.

Lemma fadd_fl_l a b : Num.fadd (Num.fl a) b = Num.fadd a b.
Proof.
  unfold Num.fadd. apply fl_comp. rewrite (fl_idempotent a). reflexivity.
Qed.

Lemma fadd_nonneg a b : (0 <= a)%Q -> (0 <= b)%Q -> (0 <= Num.fadd a b)%Q.
Proof.
  intros Ha Hb. apply fl_nonneg.
  pose proof (fl_nonneg a Ha). pose proof (fl_nonneg b Hb). lra.
Qed.

Lemma fadd_mono a a' b b' :
  (a <= a')%Q -> (b <= b')%Q -> (Num.fadd a b <= Num.fadd a' b')%Q.
Proof.
  intros Ha Hb. apply fl_mono.
  pose proof (fl_mono a a' Ha). pose proof (fl_mono b b' Hb). lra.
Qed.

Lemma fmul_zero a b : (a == 0)%Q -> Num.fmul a b = 0%Q.
Proof.
  intros Ha. unfold Num.fmul. rewrite (fl_zero a Ha).
  apply fl_zero. ring.
Qed.

Lemma fmul_mono a a' b b' :
  (0 <= a)%Q -> (a <= a')%Q -> (0 <= b)%Q -> (b <= b')%Q ->
  (Num.fmul a b <= Num.fmul a' b')%Q.
Proof.
  intros Ha Haa Hb Hbb. apply fl_mono.
  pose proof (fl_nonneg a Ha). pose proof (fl_nonneg b Hb).
  pose proof (fl_mono a a' Haa). pose proof (fl_mono b b' Hbb). nra.
Qed.

(** The product of a weight and of a term of the unit interval lies between
    0 and the weight. *)
Lemma fmul_unit w c :
  (0 <= w)%Q -> (0 <= c <= 1)%Q ->
  (0 <= Num.fmul w c <= Num.fl w)%Q.
Proof.
  intros Hw [Hc0 Hc1].
  pose proof (fl_nonneg w Hw) as Fw. pose proof (fl_nonneg c Hc0) as Fc.
  pose proof (fl_le_one c Hc1) as Fc1. split.
  - apply fl_nonneg. nra.
  - rewrite <- (fl_idempotent w). apply fl_mono. nra.
Qed.

Lemma weighted_total_bounds (w1 w2 w3 w4 w5 c1 c2 c3 c4 c5 : Q) :
  (0 <= w1 -> 0 <= w2 -> 0 <= w3 -> 0 <= w4 -> 0 <= w5 ->
   0 <= c1 <= 1 -> 0 <= c2 <= 1 -> 0 <= c3 <= 1 -> 0 <= c4 <= 1 ->
   0 <= c5 <= 1 ->
   0 <= weighted_total w1 w2 w3 w4 w5 c1 c2 c3 c4 c5
     <= float_sum w1 w2 w3 w4 w5)%Q.
Proof.
  intros W1 W2 W3 W4 W5 C1 C2 C3 C4 C5.
  destruct (fmul_unit w1 c1 W1 C1) as [L1 U1].
  destruct (fmul_unit w2 c2 W2 C2) as [L2 U2].
  destruct (fmul_unit w3 c3 W3 C3) as [L3 U3].
  destruct (fmul_unit w4 c4 W4 C4) as [L4 U4].
  destruct (fmul_unit w5 c5 W5 C5) as [L5 U5].
  unfold weighted_total, float_sum. split.
  - repeat apply fadd_nonneg; assumption.
  - rewrite <- (fadd_fl _ w5), <- (fadd_fl _ w4), <- (fadd_fl _ w3),
      <- (fadd_fl _ w2).
    rewrite <- (fadd_fl_l w1 (Num.fl w2)).
    repeat apply fadd_mono; assumption.
Qed.

(** The score and its bound: [round(total * 100, 1)] is monotone in
    [total]. *)
Lemma score_of_total_mono t t' :
  (t <= t')%Q ->
  (Num.round (Num.fmul t 100) 1 <= Num.round (Num.fmul t' 100) 1)%Q.
Proof.
  intros H. apply round_mono, fl_mono.
  pose proof (fl_mono t t' H). assert ((0 <= Num.fl 100)%Q) by (apply fl_nonneg; lra).
  nra.
Qed.

Lemma score_of_total_nonneg t :
  (0 <= t)%Q -> (0 <= Num.round (Num.fmul t 100) 1)%Q.
Proof.
  intros H.
  apply Qle_trans with (Num.round (inject_Z 0) 1);
    [rewrite round_0; apply Qle_refl|].
  apply round_mono. change (inject_Z 0) with 0%Q.
  apply fl_nonneg. pose proof (fl_nonneg t H).
  assert ((0 <= Num.fl 100)%Q) by (apply fl_nonneg; lra). nra.
Qed.

(** ** The score of [match_cv_job] *)

Section Score.
Variable cos_sim : string -> string -> Q.

Lemma match_cv_job_score cv job use thr use_desc weights w1 w2 w3 w4 w5 :
  let w := default Matching.default_weights weights in
  w !! "hard_required" = Some w1 -> w !! "hard_optional" = Some w2 ->
  w !! "soft" = Some w3 -> w !! "languages" = Some w4 ->
  w !! "description" = Some w5 ->
  exists r,
    (Matching.match_cv_job cos_sim cv job use thr use_desc weights).2 = Return r
    /\ Matching.score r
       = Num.round
           (Num.fmul
              (weighted_total w1 w2 w3 w4 w5
                 (resolved_coverage cos_sim use thr HardRequired cv job)
                 (resolved_coverage cos_sim use thr HardOptional cv job)
                 (exact_coverage Soft cv job)
                 (resolved_coverage cos_sim use thr LanguagesRequired cv job)
                 (description_term cos_sim use_desc cv job)) 100) 1
    /\ Matching.weights_used r = w.
Proof.
  intros w H1 H2 H3 H4 H5.
  unfold Matching.match_cv_job, resolved_coverage, description_term,
    exact_coverage, Matching.to_set.
  cbn [cv_field job_field].
  destruct (Matching.fallback cos_sim use HardRequired _ _ _ _ _ _)
    as [[v1 d1] c1].
  destruct (Matching.fallback cos_sim use HardOptional _ _ _ _ _ _)
    as [[v2 d2] c2].
  destruct (Matching.fallback cos_sim use LanguagesRequired _ _ _ _ _ _)
    as [[v3 d3] c3].
  fold w. unfold getitem, weighted_total. rewrite H1, H2, H3, H4, H5.
  cbn [fst snd].
  destruct use_desc.
  - destruct (Matching.semantic_similarity_text _ _ _) as [sim e].
    cbn [fst snd].
    eexists. split; [reflexivity|]. cbn [Matching.score Matching.weights_used].
    split; reflexivity.
  - eexists. split; [reflexivity|]. cbn [Matching.score Matching.weights_used].
    split; reflexivity.
Qed.

End Score.

(** ** Every term of the score lies in the unit interval *)

Lemma ratio_bounds (a b : nat) :
  (a <= b)%nat -> b <> 0%nat ->
  (0 <= Num.of_len a / Num.of_len b <= 1)%Q.
Proof.
  intros Hab Hb. rewrite (of_len_ratio a b Hb).
  assert (Hp : Z.pos (Pos.of_nat b) = Z.of_nat b).
  { destruct b as [|n]; [congruence|]. rewrite <- Pos.of_nat_succ. lia. }
  unfold Qle. simpl. rewrite Hp. split; lia.
Qed.

Lemma filter_length_le {A} (p : A -> bool) (l : list A) :
  (length (List.filter p l) <= length l)%nat.
Proof. induction l as [|a l IH]; simpl; [lia|]. destruct (p a); simpl; lia. Qed.

Section Terms.
Variable cos_sim : string -> string -> Q.

Lemma semantic_overlap_cov_bounds cv_items job_items threshold :
  (0 <= cov (Matching.semantic_overlap cos_sim cv_items job_items threshold).1
   <= 1)%Q.
Proof.
  unfold Matching.semantic_overlap.
  destruct (Matching.norm_items job_items) as [|j J].
  { simpl. split; discriminate. }
  cbn [truthy_list negb].
  destruct (Matching.norm_items cv_items) as [|cv0 cvs].
  { simpl. split; discriminate. }
  rewrite classify_filter. cbn [app fst cov].
  apply round_unit_interval, ratio_bounds.
  - apply filter_length_le.
  - discriminate.
Qed.

Lemma resolved_coverage_bounds use thr c cv job :
  (0 <= resolved_coverage cos_sim use thr c cv job <= 1)%Q.
Proof.
  unfold resolved_coverage, Matching.fallback.
  destruct (_ && _ && _).
  - pose proof (semantic_overlap_cov_bounds
                  (PStr <$> Matching.norm_list (get cv (cv_field c)))
                  (PStr <$> Matching.norm_list (get job (job_field c))) thr) as H.
    destruct (Matching.semantic_overlap _ _ _ _) as [d e]. exact H.
  - apply coverage_bounds.
Qed.

Lemma description_term_bounds use_desc cv job :
  (forall a b, 0 <= cos_sim a b <= 1)%Q ->
  (0 <= description_term cos_sim use_desc cv job <= 1)%Q.
Proof.
  intros Hsim. unfold description_term, Matching.semantic_similarity_text.
  destruct use_desc; [|split; discriminate].
  destruct (_ || _); simpl; [split; discriminate|].
  apply round_unit_interval, Hsim.
Qed.

End Terms.

(** ** Bounds of the score *)

Lemma recognized_lookups (w : gmap string Q) :
  (forall k, In k recognized -> is_Some (w !! k)) ->
  exists w1 w2 w3 w4 w5,
    w !! "hard_required" = Some w1 /\ w !! "hard_optional" = Some w2
    /\ w !! "soft" = Some w3 /\ w !! "languages" = Some w4
    /\ w !! "description" = Some w5.
Proof.
  intros H.
  destruct (H "hard_required") as [w1 H1]; [simpl; tauto|].
  destruct (H "hard_optional") as [w2 H2]; [simpl; tauto|].
  destruct (H "soft") as [w3 H3]; [simpl; tauto|].
  destruct (H "languages") as [w4 H4]; [simpl; tauto|].
  destruct (H "description") as [w5 H5]; [simpl; tauto|].
  exists w1, w2, w3, w4, w5. auto.
Qed.




(** The bound of [score_bounds] is reached, and the order of the sum
    matters to it: with these weights and every coverage equal to 1 the
    score and the bound are both 85.5. *)
Lemma score_bound_is_reached :
  exists r,
    (Matching.match_cv_job (fun _ _ => 0%Q) ∅ ∅ false (75 # 100) false
       (Some (<["languages" := 45 # 10000]>
              (<["description" := 0%Q]>
              (<["hard_required" := 5 # 10]>
              (<["soft" := 2 # 10]>
              (<["hard_optional" := 15 # 100]> ∅))))))).2 = Return r
    /\ (Matching.score r == 855 # 10)%Q
    /\ (Num.round
          (Num.fmul
             (recognized_sum
                (<["languages" := 45 # 10000]>
                 (<["description" := 0%Q]>
                 (<["hard_required" := 5 # 10]>
                 (<["soft" := 2 # 10]>
                 (<["hard_optional" := 15 # 100]> ∅)))))) 100) 1
        == 855 # 10)%Q.
Proof.
  eexists. split; [vm_compute; reflexivity|].
  split; vm_compute; reflexivity.
Qed.

(** ** Custom weights *)

Section Weights.
Variable cos_sim : string -> string -> Q.

Lemma match_cv_job_extra_key cv job use thr use_desc (w : gmap string Q) k v :
  ~ In k recognized ->
  Matching.match_cv_job cos_sim cv job use thr use_desc (Some (<[k := v]> w))
  = ((Matching.match_cv_job cos_sim cv job use thr use_desc (Some w)).1,
     match (Matching.match_cv_job cos_sim cv job use thr use_desc (Some w)).2 with
     | Return r => Return (with_weights (<[k := v]> w) r)
     | Raise e => Raise e
     end).
Proof.
  intros Hk.
  assert (Hne : forall k', In k' recognized -> <[k := v]> w !! k' = w !! k').
  { intros k' Hk'. apply lookup_insert_ne. intros ->. contradiction. }
  unfold Matching.match_cv_job. cbn [default from_option id].
  destruct (Matching.fallback cos_sim use HardRequired _ _ _ _ _ _)
    as [[v1 d1] c1].
  destruct (Matching.fallback cos_sim use HardOptional _ _ _ _ _ _)
    as [[v2 d2] c2].
  destruct (Matching.fallback cos_sim use LanguagesRequired _ _ _ _ _ _)
    as [[v3 d3] c3].
  unfold getitem.
  rewrite !Hne by (simpl; tauto).
  destruct use_desc;
    [destruct (Matching.semantic_similarity_text _ _ _) as [sim e]|];
    cbn [fst snd]; f_equal;
    destruct (w !! "hard_required"); try reflexivity;
    destruct (w !! "hard_optional"); try reflexivity;
    destruct (w !! "soft"); try reflexivity;
    destruct (w !! "languages"); try reflexivity;
    destruct (w !! "description"); reflexivity.
Qed.

Lemma exact_full_resolved use thr c cv job :
  (exact_coverage c cv job == 1)%Q ->
  (resolved_coverage cos_sim use thr c cv job == 1)%Q.
Proof.
  intros Hex. unfold resolved_coverage, Matching.fallback.
  destruct (0 <? size _)%nat eqn:E.
  - apply Nat.ltb_lt, missing_iff_incomplete in E.
    fold (exact_coverage c cv job) in E. rewrite Hex in E.
    apply Qlt_irrefl in E. contradiction.
  - rewrite andb_false_r. exact Hex.
Qed.

(** C1, amended statement. With weights holding the five recognised keys,
    [match_cv_job] returns a result; a further key changes nothing but the
    echo of the weights in the result; and with weight 1.0 on
    [hard_required], 0.0 on the four other keys, and full hard-required
    coverage, the score is 100.0 whatever the other coverages are. *)
Theorem custom_weights (cv job : gmap string pyval)
    (use_semantic_skills : bool) (skill_threshold : Q)
    (use_description_semantic : bool) (w : gmap string Q) :
  (forall k, In k recognized -> is_Some (w !! k)) ->
  exists r,
    (Matching.match_cv_job cos_sim cv job use_semantic_skills skill_threshold
       use_description_semantic (Some w)).2 = Return r
    /\ (forall k v, ~ In k recognized ->
        Matching.match_cv_job cos_sim cv job use_semantic_skills
          skill_threshold use_description_semantic (Some (<[k := v]> w))
        = ((Matching.match_cv_job cos_sim cv job use_semantic_skills
              skill_threshold use_description_semantic (Some w)).1,
           Return (with_weights (<[k := v]> w) r)))
    /\ ((forall k v, In k recognized -> w !! k = Some v ->
           (v == if String.eqb k "hard_required" then 1 else 0)%Q) ->
        (resolved_coverage cos_sim use_semantic_skills skill_threshold
           HardRequired cv job == 1)%Q ->
        (Matching.score r == 100)%Q).
Proof.
  intros Hkeys.
  destruct (recognized_lookups w Hkeys)
    as (w1 & w2 & w3 & w4 & w5 & H1 & H2 & H3 & H4 & H5).
  destruct (match_cv_job_score cos_sim cv job use_semantic_skills
              skill_threshold use_description_semantic (Some w)
              w1 w2 w3 w4 w5 H1 H2 H3 H4 H5) as (r & Hr & Hs & _).
  exists r. split; [exact Hr|]. split.
  - intros k v Hk. rewrite (match_cv_job_extra_key _ _ _ _ _ _ _ _ Hk), Hr.
    reflexivity.
  - intros Hw Hfull. rewrite Hs.
    pose proof (Hw "hard_required" _ ltac:(simpl; tauto) H1) as E1.
    pose proof (Hw "hard_optional" _ ltac:(simpl; tauto) H2) as E2.
    pose proof (Hw "soft" _ ltac:(simpl; tauto) H3) as E3.
    pose proof (Hw "languages" _ ltac:(simpl; tauto) H4) as E4.
    pose proof (Hw "description" _ ltac:(simpl; tauto) H5) as E5.
    cbn in E1, E2, E3, E4, E5. unfold weighted_total.
    rewrite (fmul_zero w2 _ E2), (fmul_zero w3 _ E3), (fmul_zero w4 _ E4),
      (fmul_zero w5 _ E5).
    rewrite (fmul_comp w1 1 _ 1 E1 Hfull).
    vm_compute. reflexivity.
Qed.

End Weights.

(** [custom_weights] at a CV and an offer that differ on soft skills. *)
Lemma custom_weights_witness :
  exists r,
    (Matching.match_cv_job (fun _ _ => 0%Q)
       {[ "skills_hard" := PList [PStr "Python"] ]}
       (<["skills_hard_required" := PList [PStr "python"]]>
        {[ "skills_soft" := PList [PStr "rigueur"] ]})
       true (75 # 100) true
       (Some (<["hard_required" := 1%Q]>
              (<["hard_optional" := 0%Q]>
              (<["soft" := 0%Q]>
              (<["languages" := 0%Q]>
              (<["description" := 0%Q]> ∅))))))).2 = Return r
    /\ (Matching.score r == 100)%Q.
Proof.
  destruct (custom_weights (fun _ _ => 0%Q)
              {[ "skills_hard" := PList [PStr "Python"] ]}
              (<["skills_hard_required" := PList [PStr "python"]]>
               {[ "skills_soft" := PList [PStr "rigueur"] ]})
              true (75 # 100) true
              (<["hard_required" := 1%Q]>
               (<["hard_optional" := 0%Q]>
               (<["soft" := 0%Q]>
               (<["languages" := 0%Q]>
               (<["description" := 0%Q]> ∅))))))
    as (r & Hr & _ & Hscore).
  - intros k Hk. simpl in Hk.
    destruct Hk as [<-|[<-|[<-|[<-|[<-|[]]]]]]; vm_compute; eauto.
  - exists r. split; [exact Hr|]. apply Hscore.
    + intros k v Hk. simpl in Hk.
      destruct Hk as [<-|[<-|[<-|[<-|[<-|[]]]]]]; vm_compute;
        intros [= <-]; reflexivity.
    + vm_compute. reflexivity.
Defined.

(** C1 does not hold for every weights mapping: with [weights = {"hard_required": 1.0}] the
    lookup of the next weight raises [KeyError], full hard-required coverage
    or not. *)
Lemma custom_weights_counterexample :
  (Matching.match_cv_job (fun _ _ => 0%Q)
     {[ "skills_hard" := PList [PStr "python"] ]}
     {[ "skills_hard_required" := PList [PStr "python"] ]}
     true (75 # 100) true
     (Some {[ "hard_required" := 1%Q ]})).2
  = Raise (KeyError "hard_optional").
Proof. vm_compute. reflexivity. Qed.

(** ** Stable insertion sort *)

Section SortFacts.
Context {A : Type}.
Variable lt : A -> A -> bool.
Variable ge : A -> A -> Prop.
Hypothesis lt_false : forall x y, lt x y = false -> ge x y.
Hypothesis lt_true : forall x y, lt x y = true -> ge y x.

Lemma insert_desc_perm x l :
  Permutation (x :: l) (Sorting.insert_desc lt x l).
Proof.
  induction l as [|y r IH]; simpl; [reflexivity|].
  destruct (lt x y); [|reflexivity].
  rewrite perm_swap. apply perm_skip, IH.
Qed.

Lemma sort_desc_perm l : Permutation l (Sorting.sort_desc lt l).
Proof.
  induction l as [|x r IH]; simpl; [reflexivity|].
  rewrite <- insert_desc_perm. apply perm_skip, IH.
Qed.

Lemma insert_desc_hd x y l :
  ge y x -> HdRel ge y l -> HdRel ge y (Sorting.insert_desc lt x l).
Proof.
  intros Hyx Hl. destruct l as [|z r]; simpl; [constructor; exact Hyx|].
  destruct (lt x z); constructor; [inversion Hl; assumption | exact Hyx].
Qed.

Lemma insert_desc_sorted x l :
  Sorted ge l -> Sorted ge (Sorting.insert_desc lt x l).
Proof.
  induction 1 as [|y r Hr IH Hhd]; simpl; [repeat constructor|].
  destruct (lt x y) eqn:E.
  - constructor; [exact IH|]. apply insert_desc_hd; [apply lt_true, E | exact Hhd].
  - constructor; [constructor; assumption|]. constructor. apply lt_false, E.
Qed.

Lemma sort_desc_sorted l : Sorted ge (Sorting.sort_desc lt l).
Proof.
  induction l as [|x r IH]; simpl; [constructor|].
  apply insert_desc_sorted, IH.
Qed.

End SortFacts.

Lemma key_lt_false a b : Matching.key_lt a b = false -> key_ge a b.
Proof.
  unfold Matching.key_lt, Matching.key_compare, key_ge. cbv zeta.
  destruct (Qcompare_spec (Matching.score (Matching.m a))
              (Matching.score (Matching.m b))) as [Hs|Hs|Hs];
    [|discriminate|intros _; left; exact Hs].
  destruct (Qcompare_spec (Matching.hard_required_coverage (Matching.m a))
              (Matching.hard_required_coverage (Matching.m b))) as [Hc|Hc|Hc];
    [|discriminate|intros _; right; split; [exact Hs|left; exact Hc]].
  destruct (Qcompare_spec (Matching.description_similarity (Matching.m a))
              (Matching.description_similarity (Matching.m b))) as [Hd|Hd|Hd];
    [|discriminate|]; intros _; right; split; try exact Hs; right;
    split; try exact Hc; lra.
Qed.

Lemma key_lt_true a b : Matching.key_lt a b = true -> key_ge b a.
Proof.
  unfold Matching.key_lt, Matching.key_compare, key_ge. cbv zeta.
  destruct (Qcompare_spec (Matching.score (Matching.m a))
              (Matching.score (Matching.m b))) as [Hs|Hs|Hs];
    [|intros _; left; exact Hs|discriminate].
  destruct (Qcompare_spec (Matching.hard_required_coverage (Matching.m a))
              (Matching.hard_required_coverage (Matching.m b))) as [Hc|Hc|Hc];
    [|intros _; right; split; [symmetry; exact Hs|left; exact Hc]|discriminate].
  destruct (Qcompare_spec (Matching.description_similarity (Matching.m a))
              (Matching.description_similarity (Matching.m b))) as [Hd|Hd|Hd];
    try discriminate.
  intros _. right. split; [symmetry; exact Hs|]. right.
  split; [symmetry; exact Hc|]. lra.
Qed.

Lemma key_ge_trans a b c : key_ge a b -> key_ge b c -> key_ge a c.
Proof.
  unfold key_ge. cbv zeta.
  set (sa := Matching.score (Matching.m a)).
  set (sb := Matching.score (Matching.m b)).
  set (sc := Matching.score (Matching.m c)).
  set (ha := Matching.hard_required_coverage (Matching.m a)).
  set (hb := Matching.hard_required_coverage (Matching.m b)).
  set (hc := Matching.hard_required_coverage (Matching.m c)).
  set (da := Matching.description_similarity (Matching.m a)).
  set (db := Matching.description_similarity (Matching.m b)).
  set (dc := Matching.description_similarity (Matching.m c)).
  intros [H1|[E1 [H1|[F1 G1]]]] [H2|[E2 [H2|[F2 G2]]]];
    try (left; lra);
    right; (split; [lra|]); try (left; lra).
  right. split; lra.
Qed.

(** ** [match_cv_market] of [matching.py] *)

Section Market.
Variable cos_sim : string -> string -> Q.

Lemma market_loop_reaches cv jobs min_score use thr use_desc weights acc rows :
  Matching.market_loop cos_sim cv jobs min_score use thr use_desc weights acc
  = Return rows ->
  Forall (reaches min_score) acc -> Forall (reaches min_score) rows.
Proof.
  revert acc. induction jobs as [|job rest IH]; intros acc; simpl.
  - intros [= <-] Hacc. exact Hacc.
  - destruct (Matching.match_cv_job cos_sim cv job use thr use_desc weights).2
      as [r|e]; simpl; [|discriminate].
    intros Hloop Hacc. apply (IH _ Hloop).
    destruct (Num.geb (Matching.score r) min_score) eqn:E; [|exact Hacc].
    apply Forall_app. split; [exact Hacc|].
    constructor; [|constructor].
    unfold reaches. simpl. apply Qle_bool_iff. exact E.
Qed.

Lemma market_loop_none cv jobs min_score use thr use_desc weights acc :
  (forall job, In job jobs ->
     exists r,
       (Matching.match_cv_job cos_sim cv job use thr use_desc weights).2
       = Return r
       /\ (Matching.score r < min_score)%Q) ->
  Matching.market_loop cos_sim cv jobs min_score use thr use_desc weights acc
  = Return acc.
Proof.
  revert acc. induction jobs as [|job rest IH]; intros acc Hall; simpl;
    [reflexivity|].
  destruct (Hall job (or_introl eq_refl)) as (r & -> & Hlt). simpl.
  assert (E : Num.geb (Matching.score r) min_score = false).
  { destruct (Num.geb _ _) eqn:E; [|reflexivity].
    apply Qle_bool_iff in E. lra. }
  rewrite E. apply IH. intros j Hj. apply Hall. right. exact Hj.
Qed.

Lemma market_loop_returns cv jobs min_score use thr use_desc weights acc :
  (forall k, In k recognized ->
     is_Some (default Matching.default_weights weights !! k)) ->
  exists rows,
    Matching.market_loop cos_sim cv jobs min_score use thr use_desc weights acc
    = Return rows.
Proof.
  intros Hkeys. revert acc.
  induction jobs as [|job rest IH]; intros acc; simpl; [eauto|].
  destruct (recognized_lookups _ Hkeys)
    as (w1 & w2 & w3 & w4 & w5 & H1 & H2 & H3 & H4 & H5).
  destruct (match_cv_job_score cos_sim cv job use thr use_desc weights
              w1 w2 w3 w4 w5 H1 H2 H3 H4 H5) as (r & -> & _).
  simpl. apply IH.
Qed.

(** What [matching.py] does on an empty market and on a market no job of
    which reaches [min_score]: an empty frame, no exception. *)
Lemma matching_market_empty cv jobs min_score use thr use_desc weights :
  Matching.match_cv_market cos_sim cv [] min_score use thr use_desc weights
  = Return []
  /\ ((forall job, In job jobs ->
         exists r,
           (Matching.match_cv_job cos_sim cv job use thr use_desc weights).2
           = Return r
           /\ (Matching.score r < min_score)%Q) ->
      Matching.match_cv_market cos_sim cv jobs min_score use thr use_desc weights
      = Return []).
Proof.
  split; [reflexivity|].
  intros Hall. unfold Matching.match_cv_market.
  rewrite (market_loop_none _ _ _ _ _ _ _ _ Hall). reflexivity.
Qed.

(** What [matching.py] returns as a ranking: rows that reach [min_score],
    in descending order of the three-level key; and it does return one when
    the weights hold the recognised keys. *)
Lemma matching_market_ranked cv jobs min_score use thr use_desc weights :
  (forall rows,
     Matching.match_cv_market cos_sim cv jobs min_score use thr use_desc weights
     = Return rows ->
     Forall (reaches min_score) rows /\ StronglySorted key_ge rows)
  /\ ((forall k, In k recognized ->
         is_Some (default Matching.default_weights weights !! k)) ->
      exists rows,
        Matching.match_cv_market cos_sim cv jobs min_score use thr use_desc
          weights = Return rows).
Proof.
  split.
  - intros rows. unfold Matching.match_cv_market.
    destruct (Matching.market_loop _ _ _ _ _ _ _ _ _) as [res|e] eqn:E;
      simpl; [|discriminate].
    apply market_loop_reaches in E; [|constructor].
    destruct res as [|x res']; simpl; intros [= <-].
    + split; constructor.
    + split.
      * rewrite Forall_forall in E |- *. intros y Hy. apply E.
        apply list_elem_of_In. apply list_elem_of_In in Hy.
        eapply Permutation_in; [|exact Hy].
        symmetry. apply (sort_desc_perm Matching.key_lt (x :: res')).
      * apply Sorted_StronglySorted; [intros a b c; apply key_ge_trans|].
        apply (sort_desc_sorted Matching.key_lt key_ge
                 key_lt_false key_lt_true (x :: res')).
  - intros Hkeys. unfold Matching.match_cv_market.
    destruct (market_loop_returns cv jobs min_score use thr use_desc weights
                [] Hkeys) as (res & ->).
    simpl. destruct (truthy_list res); simpl; eauto.
Qed.

End Market.

(** ** [match_cv_market] of [cv_matching.py] *)

(** C7. On an empty job collection, and on a collection no job of which
    reaches [min_score], [match_cv_market] of [cv_matching.py] raises
    [KeyError] from [sort_values], where [matching.py] guards the sort and
    returns the empty frame. *)
Theorem cv_matching_market_empty_raises
    (cos_sim : string -> string -> Q) (cv : gmap string pyval) (min_score : Q) :
  CvMatching.match_cv_market cv [] min_score = Raise (KeyError "score")
  /\ CvMatching.match_cv_market ∅
       [ {[ "skills_hard_required" := PList [PStr "python"] ]} ] 90
     = Raise (KeyError "score")
  /\ Matching.match_cv_market cos_sim cv [] min_score true (75 # 100) true None
     = Return [].
Proof.
  split; [reflexivity|]. split; [vm_compute; reflexivity | reflexivity].
Qed.

(** C8. [match_cv_market] of [cv_matching.py] sorts on the score alone: two
    offers with the score 40.0 stay in their input order although the second
    has the higher coverage of the required hard skills. *)
Theorem cv_matching_market_single_key :
  exists a b,
    CvMatching.match_cv_market
      {[ "skills_hard" := PList [PStr "python"] ]}
      [ {[ "skills_hard_required" := PList [PStr "java"] ]};
        <["skills_hard_required" := PList [PStr "python"; PStr "java"]]>
        (<["skills_hard_optional" := PList [PStr "docker"]]>
         {[ "skills_soft" := PList [PStr "rigueur"] ]}) ]
      0
    = Return [a; b]
    /\ (CvMatching.score (CvMatching.m a) == 40)%Q
    /\ (CvMatching.score (CvMatching.m b) == 40)%Q
    /\ (CvMatching.hard_required_coverage (CvMatching.m a) == 0)%Q
    /\ (CvMatching.hard_required_coverage (CvMatching.m b) == 1 # 2)%Q.
Proof.
  eexists _, _. split; [vm_compute; reflexivity|].
  repeat split; vm_compute; reflexivity.
Qed.

(** * Further properties of the matching code *)

(** ** The row maximum and the threshold *)

Lemma row_max_bounds (x : Q) (xs : list Q) :
  In (Num.row_max x xs) (x :: xs)
  /\ forall y, In y (x :: xs) -> (y <= Num.row_max x xs)%Q.
Proof.
  unfold Num.row_max. revert x.
  induction xs as [|z zs IH]; intros x; simpl.
  - split; [left; reflexivity|]. intros y [<-|[]]. apply Qle_refl.
  - destruct (Qle_bool z x) eqn:E.
    + destruct (IH x) as [Hin Hge]. split.
      * destruct Hin as [Hin|Hin]; [left; exact Hin | right; right; exact Hin].
      * intros y [<-|[<-|Hy]].
        -- apply Hge. left. reflexivity.
        -- apply Qle_bool_iff in E.
           apply Qle_trans with x; [exact E | apply Hge; left; reflexivity].
        -- apply Hge. right. exact Hy.
    + destruct (IH z) as [Hin Hge]. split.
      * right. exact Hin.
      * assert (Hxz : (x <= z)%Q).
        { destruct (Qlt_le_dec x z) as [H|H]; [apply Qlt_le_weak, H|].
          apply Qle_bool_iff in H. congruence. }
        intros y [<-|[<-|Hy]].
        -- apply Qle_trans with z; [exact Hxz | apply Hge; left; reflexivity].
        -- apply Hge. left. reflexivity.
        -- apply Hge. right. exact Hy.
Qed.

Lemma is_matched_exists (cos_sim : string -> string -> Q)
    (threshold : Q) (cv0 : string) (cvs : list string) (job_item : string) :
  Semantic.is_matched cos_sim threshold cv0 cvs job_item = true
  <-> exists c, In c (cv0 :: cvs) /\ (threshold <= cos_sim job_item c)%Q.
Proof.
  unfold Semantic.is_matched, Num.geb. rewrite Qle_bool_iff.
  destruct (row_max_bounds (cos_sim job_item cv0)
              (map (cos_sim job_item) cvs)) as [Hin Hge].
  split.
  - intros Ht. destruct Hin as [Hin|Hin].
    + exists cv0. split; [left; reflexivity|]. rewrite Hin. exact Ht.
    + apply in_map_iff in Hin as (c & Hc & Hcin).
      exists c. split; [right; exact Hcin|]. rewrite Hc. exact Ht.
  - intros (c & Hc & Ht).
    apply Qle_trans with (cos_sim job_item c); [exact Ht|].
    apply Hge. destruct Hc as [<-|Hc]; [left; reflexivity|].
    right. apply in_map. exact Hc.
Qed.

(** X1. A job item is classified as matched exactly when some CV item has a
    similarity with it that reaches the threshold. *)
Theorem is_matched_iff_some_cv_item (cos_sim : string -> string -> Q)
    (threshold : Q) (cv0 : string) (cvs : list string) (job_item : string) :
  Semantic.is_matched cos_sim threshold cv0 cvs job_item = true
  <-> exists c, In c (cv0 :: cvs) /\ (threshold <= cos_sim job_item c)%Q.
Proof. apply is_matched_exists. Qed.

Lemma is_matched_threshold_mono cos_sim t t' cv0 cvs j :
  (t' <= t)%Q ->
  Semantic.is_matched cos_sim t cv0 cvs j = true ->
  Semantic.is_matched cos_sim t' cv0 cvs j = true.
Proof.
  unfold Semantic.is_matched, Num.geb. rewrite !Qle_bool_iff.
  intros Ht H. apply Qle_trans with t; assumption.
Qed.

Lemma filter_length_mono {A} (p q : A -> bool) (l : list A) :
  (forall x, p x = true -> q x = true) ->
  (length (List.filter p l) <= length (List.filter q l))%nat.
Proof.
  intros Hpq. induction l as [|a l IH]; simpl; [lia|].
  destruct (p a) eqn:E.
  - rewrite (Hpq a E). simpl. lia.
  - destruct (q a); simpl; lia.
Qed.

Lemma ratio_mono (a b n : nat) :
  (a <= b)%nat -> n <> 0%nat ->
  (Num.of_len a / Num.of_len n <= Num.of_len b / Num.of_len n)%Q.
Proof.
  intros Hab Hn. rewrite !(of_len_ratio _ n Hn).
  unfold Qle. simpl. apply Z.mul_le_mono_nonneg_r; lia.
Qed.

(** X2. Lowering the threshold of [semantic_overlap] never loses a matched
    item and never lowers the coverage. *)
Theorem semantic_overlap_threshold_mono (cos_sim : string -> string -> Q)
    (cv_items job_items : list pyval) (t t' : Q) :
  (t' <= t)%Q ->
  (forall x,
      In x (matched (Matching.semantic_overlap cos_sim cv_items job_items t).1) ->
      In x (matched (Matching.semantic_overlap cos_sim cv_items job_items t').1))
  /\ (cov (Matching.semantic_overlap cos_sim cv_items job_items t).1
      <= cov (Matching.semantic_overlap cos_sim cv_items job_items t').1)%Q.
Proof.
  intros Ht. unfold Matching.semantic_overlap.
  destruct (Matching.norm_items job_items) as [|j J].
  { simpl. split; [tauto | apply Qle_refl]. }
  cbn [truthy_list negb].
  destruct (Matching.norm_items cv_items) as [|cv0 cvs].
  { simpl. split; [tauto | apply Qle_refl]. }
  rewrite !classify_filter. cbn [app fst matched cov].
  split.
  - intros x. rewrite !filter_In. intros [Hx Hm]. split; [exact Hx|].
    eapply is_matched_threshold_mono; eassumption.
  - apply round_mono, ratio_mono; [|discriminate].
    apply filter_length_mono. intros x.
    apply is_matched_threshold_mono, Ht.
Qed.

Lemma semantic_overlap_threshold_mono_witness :
  (cov (Matching.semantic_overlap (fun a b => if String.eqb a b then 1 else 6 # 10)
          [PStr "py"] [PStr "python"; PStr "py"] (75 # 100)).1
   <= cov (Matching.semantic_overlap (fun a b => if String.eqb a b then 1 else 6 # 10)
          [PStr "py"] [PStr "python"; PStr "py"] (5 # 10)).1)%Q.
Proof.
  apply (semantic_overlap_threshold_mono _ [PStr "py"]
           [PStr "python"; PStr "py"] (75 # 100) (5 # 10)).
  vm_compute. discriminate.
Defined.

(** ** The two versions of [semantic_overlap] agree on normalised input *)

(** X3. On lists of canonical strings with at least one job item,
    [semantic_overlap] of [semantic_matching.py] returns the same dictionary
    as the one of [matching.py]. *)
Theorem semantic_overlap_versions_agree (cos_sim : string -> string -> Q)
    (cv_skills job_skills : list string) (threshold : Q) :
  Forall (fun s => Str.canonical s = true) cv_skills ->
  Forall (fun s => Str.canonical s = true) job_skills ->
  job_skills <> [] ->
  SemanticMatching.semantic_overlap cos_sim cv_skills job_skills threshold
  = (Matching.semantic_overlap cos_sim (PStr <$> cv_skills)
       (PStr <$> job_skills) threshold).1.
Proof.
  intros Hcv Hjob Hne.
  unfold SemanticMatching.semantic_overlap, Matching.semantic_overlap.
  rewrite (norm_items_fixed _ Hcv), (norm_items_fixed _ Hjob).
  destruct job_skills as [|j J]; [congruence|].
  cbn [truthy_list negb].
  destruct cv_skills as [|cv0 cvs]; [reflexivity|].
  destruct (Semantic.classify _ _ _ _) as [ma mi]. reflexivity.
Qed.

Lemma semantic_overlap_versions_agree_witness :
  SemanticMatching.semantic_overlap (fun _ _ => 1 # 2) ["sql"] ["sql"; "java"]
    (75 # 100)
  = (Matching.semantic_overlap (fun _ _ => 1 # 2) (PStr <$> ["sql"])
       (PStr <$> ["sql"; "java"]) (75 # 100)).1.
Proof.
  apply semantic_overlap_versions_agree.
  - repeat constructor.
  - repeat constructor.
  - discriminate.
Defined.

(** ** More on the exact coverage *)

Lemma pos_of_size (R : gset string) :
  R <> ∅ -> Z.pos (Pos.of_nat (size R)) = Z.of_nat (size R).
Proof.
  intros HR. assert (Hn : size R <> 0%nat) by (rewrite size_zero_empty; exact HR).
  destruct (size R) as [|n]; [congruence|]. rewrite <- Pos.of_nat_succ. lia.
Qed.

Lemma coverage_full_iff_and_mono (S S' R : gset string) :
  ((Matching.coverage S R == 1)%Q <-> R ⊆ S)
  /\ (S ⊆ S' -> (Matching.coverage S R <= Matching.coverage S' R)%Q).
Proof.
  destruct (decide (R = ∅)) as [->|HR].
  { unfold Matching.coverage. rewrite size_empty. simpl. split.
    - split; [intros _; set_solver | reflexivity].
    - intros _. apply Qle_refl. }
  pose proof (pos_of_size R HR) as Hp.
  split.
  - rewrite (coverage_nonempty S R HR). unfold Qeq. simpl. rewrite Hp.
    assert (Hle : (size (S ∩ R) <= size R)%nat).
    { apply subseteq_size. set_solver. }
    assert (Hd : size (R ∖ S) = (size R - size (R ∩ S))%nat)
      by apply size_difference_alt.
    assert (R ∩ S = S ∩ R) as Hc by set_solver. rewrite Hc in Hd.
    split.
    + intros H. assert (H0 : size (R ∖ S) = 0%nat) by lia.
      apply size_zero_empty in H0. set_solver.
    + intros Hsub. assert (H0 : R ∖ S = ∅) by set_solver.
      apply size_zero_empty in H0. lia.
  - intros Hsub. rewrite !(coverage_nonempty _ R HR).
    assert (Hle : (size (S ∩ R) <= size (S' ∩ R))%nat).
    { apply subseteq_size. set_solver. }
    unfold Qle. simpl. apply Z.mul_le_mono_nonneg_r; lia.
Qed.

(** X4. The exact coverage is 1.0 exactly when every required item is in the
    candidate set, and it does not decrease when the candidate set grows. *)
Theorem coverage_full_and_monotone (S S' R : gset string) :
  ((Matching.coverage S R == 1)%Q <-> R ⊆ S)
  /\ (S ⊆ S' -> (Matching.coverage S R <= Matching.coverage S' R)%Q).
Proof. apply coverage_full_iff_and_mono. Qed.

Lemma coverage_full_and_monotone_witness :
  (Matching.coverage {[ "sql" ]} {[ "sql"; "python" ]}
   <= Matching.coverage {[ "sql"; "python" ]} {[ "sql"; "python" ]})%Q.
Proof.
  apply (proj2 (coverage_full_and_monotone {[ "sql" ]} {[ "sql"; "python" ]}
                  {[ "sql"; "python" ]})).
  set_solver.
Defined.

(** ** [norm_list] and [to_set] on concatenated lists *)

Lemma norm_items_app a b :
  Matching.norm_items (a ++ b) = Matching.norm_items a ++ Matching.norm_items b.
Proof.
  induction a as [|v r IH]; simpl; [reflexivity|].
  destruct v; try exact IH.
  destruct (truthy_str _); [simpl; f_equal|]; exact IH.
Qed.

Lemma norm_items_length items :
  (length (Matching.norm_items items) <= length items)%nat.
Proof.
  induction items as [|v r IH]; simpl; [lia|].
  destruct v; try lia. destruct (truthy_str _); simpl; lia.
Qed.

(** X5. [norm_list] keeps the order of the items it keeps, so it maps a
    concatenation to the concatenation of the normalised lists and never
    returns more items than it received; [to_set] maps a concatenation to
    the union. *)
Theorem norm_list_concatenation (a b : list pyval) :
  Matching.norm_list (PList (a ++ b))
  = Matching.norm_list (PList a) ++ Matching.norm_list (PList b)
  /\ (length (Matching.norm_list (PList a)) <= length a)%nat
  /\ Matching.to_set (PList (a ++ b))
     = Matching.to_set (PList a) ∪ Matching.to_set (PList b).
Proof.
  split; [apply norm_items_app|]. split; [apply norm_items_length|].
  unfold Matching.to_set. simpl. rewrite norm_items_app.
  apply set_eq. intros x. rewrite elem_of_union, !elem_of_list_to_set.
  apply elem_of_app.
Qed.

(** ** Which weights make [match_cv_job] return *)

Lemma match_cv_job_first_missing (cos_sim : string -> string -> Q)
    (cv job : gmap string pyval) (use_semantic_skills : bool)
    (skill_threshold : Q) (use_description_semantic : bool)
    (w : gmap string Q) :
  match first_missing w with
  | Some k =>
      (Matching.match_cv_job cos_sim cv job use_semantic_skills
         skill_threshold use_description_semantic (Some w)).2
      = Raise (KeyError k)
  | None =>
      exists r,
        (Matching.match_cv_job cos_sim cv job use_semantic_skills
           skill_threshold use_description_semantic (Some w)).2 = Return r
  end.
Proof.
  unfold first_missing, recognized, Matching.match_cv_job.
  cbn [default from_option id List.find].
  destruct (Matching.fallback cos_sim use_semantic_skills HardRequired
              _ _ _ _ _ _) as [[v1 d1] c1].
  destruct (Matching.fallback cos_sim use_semantic_skills HardOptional
              _ _ _ _ _ _) as [[v2 d2] c2].
  destruct (Matching.fallback cos_sim use_semantic_skills LanguagesRequired
              _ _ _ _ _ _) as [[v3 d3] c3].
  unfold getitem.
  destruct use_description_semantic;
    [destruct (Matching.semantic_similarity_text _ _ _) as [sim e]|];
    cbn [snd];
    destruct (w !! "hard_required"); try reflexivity;
    destruct (w !! "hard_optional"); try reflexivity;
    destruct (w !! "soft"); try reflexivity;
    destruct (w !! "languages"); try reflexivity;
    destruct (w !! "description"); try reflexivity;
    eexists; reflexivity.
Qed.

(** X6. [match_cv_job] returns a result when the weights hold the five
    recognised keys, and otherwise raises [KeyError] for the first key, in
    the order hard_required, hard_optional, soft, languages, description,
    that the weights lack. *)
Theorem match_cv_job_key_error (cos_sim : string -> string -> Q)
    (cv job : gmap string pyval) (use_semantic_skills : bool)
    (skill_threshold : Q) (use_description_semantic : bool)
    (w : gmap string Q) :
  match first_missing w with
  | Some k =>
      (Matching.match_cv_job cos_sim cv job use_semantic_skills
         skill_threshold use_description_semantic (Some w)).2
      = Raise (KeyError k)
  | None =>
      exists r,
        (Matching.match_cv_job cos_sim cv job use_semantic_skills
           skill_threshold use_description_semantic (Some w)).2 = Return r
  end.
Proof. apply match_cv_job_first_missing. Qed.

(** ** The fields of the result of [match_cv_job] *)

Lemma match_cv_job_fields (cos_sim : string -> string -> Q) cv job use thr
    use_desc weights r :
  (Matching.match_cv_job cos_sim cv job use thr use_desc weights).2 = Return r ->
  Matching.hard_required_coverage r
  = Num.round (resolved_coverage cos_sim use thr HardRequired cv job) 2
  /\ Matching.hard_optional_coverage r
     = Num.round (resolved_coverage cos_sim use thr HardOptional cv job) 2
  /\ Matching.soft_coverage r = Num.round (exact_coverage Soft cv job) 2
  /\ Matching.languages_required_coverage r
     = Num.round (resolved_coverage cos_sim use thr LanguagesRequired cv job) 2
  /\ Matching.description_similarity r
     = Num.round (description_term cos_sim use_desc cv job) 3
  /\ Matching.hard_required_missing r
     = Sorting.sorted_set
         (Matching.missing_of
            (resolved_detail cos_sim use thr HardRequired cv job)
            (Matching.to_set (get cv "skills_hard"))
            (Matching.to_set (get job "skills_hard_required")))
  /\ Matching.hard_optional_missing r
     = Sorting.sorted_set
         (Matching.missing_of
            (resolved_detail cos_sim use thr HardOptional cv job)
            (Matching.to_set (get cv "skills_hard"))
            (Matching.to_set (get job "skills_hard_optional")))
  /\ Matching.languages_required_missing r
     = Sorting.sorted_set
         (Matching.missing_of
            (resolved_detail cos_sim use thr LanguagesRequired cv job)
            (Matching.to_set (get cv "languages"))
            (Matching.to_set (get job "languages_required")))
  /\ Matching.soft_skills_missing r
     = Sorting.sorted_set
         (elements (Matching.to_set (get job "skills_soft")
                    ∖ Matching.to_set (get cv "skills_soft")))
  /\ Matching.languages_optional_missing r
     = Sorting.sorted_set
         (elements (Matching.to_set (get job "languages_optional")
                    ∖ Matching.to_set (get cv "languages")))
  /\ Matching.used_semantic_skills r = use
  /\ Matching.skill_threshold_used r = thr
  /\ Matching.used_description_semantic r = use_desc
  /\ Matching.weights_used r = default Matching.default_weights weights.
Proof.
  unfold Matching.match_cv_job, resolved_coverage, resolved_detail,
    description_term, exact_coverage, Matching.to_set.
  cbn [cv_field job_field].
  destruct (Matching.fallback cos_sim use HardRequired _ _ _ _ _ _)
    as [[v1 d1] c1].
  destruct (Matching.fallback cos_sim use HardOptional _ _ _ _ _ _)
    as [[v2 d2] c2].
  destruct (Matching.fallback cos_sim use LanguagesRequired _ _ _ _ _ _)
    as [[v3 d3] c3].
  unfold getitem.
  destruct use_desc;
    [destruct (Matching.semantic_similarity_text _ _ _) as [sim e]|];
    cbn [fst snd];
    (destruct (_ !! "hard_required"); [|discriminate]);
    (destruct (_ !! "hard_optional"); [|discriminate]);
    (destruct (_ !! "soft"); [|discriminate]);
    (destruct (_ !! "languages"); [|discriminate]);
    (destruct (_ !! "description"); [|discriminate]);
    intros [= <-]; cbn; repeat split; reflexivity.
Qed.

(** ** [sorted(set(...))] *)

Section SortAscFacts.
Context {A : Type}.
Variable lt : A -> A -> bool.
Variable le : A -> A -> Prop.
Hypothesis lt_le : forall x y, lt x y = true -> le x y.
Hypothesis not_lt_le : forall x y, lt x y = false -> le y x.

Lemma insert_asc_perm x l : Permutation (x :: l) (Sorting.insert_asc lt x l).
Proof.
  induction l as [|y r IH]; simpl; [reflexivity|].
  destruct (lt y x); [|reflexivity].
  rewrite perm_swap. apply perm_skip, IH.
Qed.

Lemma sort_asc_perm l : Permutation l (Sorting.sort_asc lt l).
Proof.
  induction l as [|x r IH]; simpl; [reflexivity|].
  rewrite <- insert_asc_perm. apply perm_skip, IH.
Qed.

Lemma insert_asc_sorted x l :
  Sorted le l -> Sorted le (Sorting.insert_asc lt x l).
Proof.
  induction 1 as [|y r Hr IH Hhd]; simpl; [repeat constructor|].
  destruct (lt y x) eqn:E.
  - constructor; [exact IH|].
    destruct r as [|z r']; simpl; [constructor; apply lt_le, E|].
    destruct (lt z x); constructor;
      [inversion Hhd; assumption | apply lt_le, E].
  - constructor; [constructor; assumption|]. constructor. apply not_lt_le, E.
Qed.

Lemma sort_asc_sorted l : Sorted le (Sorting.sort_asc lt l).
Proof.
  induction l as [|x r IH]; simpl; [constructor|].
  apply insert_asc_sorted, IH.
Qed.

End SortAscFacts.

Lemma string_ltb_leb x y : String.ltb x y = true -> String.leb x y = true.
Proof.
  unfold String.ltb, String.leb.
  destruct (String.compare x y); intros H; try reflexivity; discriminate.
Qed.

Lemma string_not_ltb_leb x y : String.ltb x y = false -> String.leb y x = true.
Proof.
  unfold String.ltb, String.leb. rewrite (String.compare_antisym y x).
  destruct (String.compare x y); simpl; intros H; try reflexivity;
    discriminate.
Qed.

Lemma sorted_set_spec (items : list string) :
  (forall x, In x (Sorting.sorted_set items) <-> In x items)
  /\ List.NoDup (Sorting.sorted_set items)
  /\ Sorted (fun a b => String.leb a b = true) (Sorting.sorted_set items).
Proof.
  unfold Sorting.sorted_set.
  pose proof (sort_asc_perm String.ltb
                (elements (list_to_set items : gset string))) as HP.
  split; [|split].
  - intros x. split.
    + intros Hx. apply (Permutation_in _ (Permutation_sym HP)) in Hx.
      apply list_elem_of_In, elem_of_elements, elem_of_list_to_set in Hx.
      apply list_elem_of_In. exact Hx.
    + intros Hx. apply (Permutation_in _ HP).
      apply list_elem_of_In, elem_of_elements, elem_of_list_to_set.
      apply list_elem_of_In. exact Hx.
  - apply (Permutation_NoDup HP). apply NoDup_ListNoDup, NoDup_elements.
  - apply (sort_asc_sorted String.ltb (fun a b => String.leb a b = true)).
    + intros x y. apply string_ltb_leb.
    + intros x y. apply string_not_ltb_leb.
Qed.

(** ** The default weights *)

(** X7. With the default weights ([weights=None]) [match_cv_job] returns a
    result for every CV and job, whatever their fields hold; its score lies
    between 0 and 100 when the description channel is off or the cosine
    similarity lies in [[0, 1]]. *)
Theorem default_weights_score (cos_sim : string -> string -> Q)
    (cv job : gmap string pyval) (use_semantic_skills : bool)
    (skill_threshold : Q) (use_description_semantic : bool) :
  exists r,
    (Matching.match_cv_job cos_sim cv job use_semantic_skills skill_threshold
       use_description_semantic None).2 = Return r
    /\ (use_description_semantic = false
        \/ (forall a b, 0 <= cos_sim a b <= 1)%Q ->
        (0 <= Matching.score r <= 100)%Q).
Proof.
  destruct (match_cv_job_score cos_sim cv job use_semantic_skills
              skill_threshold use_description_semantic None
              (45 # 100) (15 # 100) (10 # 100) (10 # 100) (20 # 100))
    as (r & Hr & Hs & _); try reflexivity.
  exists r. split; [exact Hr|]. intros Hdesc. rewrite Hs.
  pose proof (resolved_coverage_bounds cos_sim use_semantic_skills
                skill_threshold HardRequired cv job) as B1.
  pose proof (resolved_coverage_bounds cos_sim use_semantic_skills
                skill_threshold HardOptional cv job) as B2.
  pose proof (coverage_bounds (Matching.to_set (get cv (cv_field Soft)))
                (Matching.to_set (get job (job_field Soft)))) as B3.
  fold (exact_coverage Soft cv job) in B3.
  pose proof (resolved_coverage_bounds cos_sim use_semantic_skills
                skill_threshold LanguagesRequired cv job) as B4.
  assert (B5 : (0 <= description_term cos_sim use_description_semantic cv job
                <= 1)%Q).
  { destruct Hdesc as [->|Hsim].
    - simpl. split; discriminate.
    - apply description_term_bounds, Hsim. }
  pose proof (weighted_total_bounds (45 # 100) (15 # 100) (10 # 100)
                (10 # 100) (20 # 100) _ _ _ _ _
                ltac:(discriminate) ltac:(discriminate) ltac:(discriminate)
                ltac:(discriminate) ltac:(discriminate) B1 B2 B3 B4 B5)
    as [T0 T1].
  split.
  - apply score_of_total_nonneg, T0.
  - eapply Qle_trans; [apply score_of_total_mono, T1|].
    vm_compute. discriminate.
Qed.

Lemma default_weights_score_witness :
  exists r,
    (Matching.match_cv_job (fun _ _ => 1 # 3) {[ "skills_hard" := PInt 3 ]}
       {[ "description" := PNone ]} true (75 # 100) true None).2 = Return r
    /\ (0 <= Matching.score r <= 100)%Q.
Proof.
  destruct (default_weights_score (fun _ _ => 1 # 3)
              {[ "skills_hard" := PInt 3 ]} {[ "description" := PNone ]}
              true (75 # 100) true) as (r & Hr & Hs).
  exists r. split; [exact Hr|]. apply Hs. right.
  intros a b. split; discriminate.
Defined.

(** ** Coverage and missing items reported per category *)

Section Reported.
Variable cos_sim : string -> string -> Q.

Lemma semantic_overlap_missing_in cv_items job_items threshold x :
  In x (missing (Matching.semantic_overlap cos_sim cv_items job_items
                   threshold).1) ->
  In x (Matching.norm_items job_items).
Proof.
  unfold Matching.semantic_overlap.
  destruct (Matching.norm_items job_items) as [|j J]; [simpl; tauto|].
  cbn [truthy_list negb].
  destruct (Matching.norm_items cv_items) as [|cv0 cvs]; [simpl; tauto|].
  rewrite classify_filter. cbn [app fst missing].
  rewrite filter_In. tauto.
Qed.

Lemma resolved_detail_cases use thr c cv job :
  (resolved_detail cos_sim use thr c cv job = None
   /\ resolved_coverage cos_sim use thr c cv job = exact_coverage c cv job)
  \/ (use = true
      /\ (0 < size (Matching.to_set (get job (job_field c))
                    ∖ Matching.to_set (get cv (cv_field c))))%nat
      /\ resolved_detail cos_sim use thr c cv job
         = Some (Matching.semantic_overlap cos_sim
                   (PStr <$> Matching.norm_list (get cv (cv_field c)))
                   (PStr <$> Matching.norm_list (get job (job_field c)))
                   thr).1).
Proof.
  unfold resolved_detail, resolved_coverage, Matching.fallback.
  destruct use; [|left; split; reflexivity].
  destruct (truthy_list _); [|left; split; reflexivity].
  destruct (0 <? size _)%nat eqn:E; [|left; split; reflexivity].
  apply Nat.ltb_lt in E. right. split; [reflexivity|]. split; [exact E|].
  cbn [andb]. destruct (Matching.semantic_overlap _ _ _ _). reflexivity.
Qed.

Lemma reported_missing_eq cv job use thr use_desc weights r c :
  (Matching.match_cv_job cos_sim cv job use thr use_desc weights).2 = Return r ->
  reported_missing c r
  = Sorting.sorted_set
      (Matching.missing_of
         (if eligible c then resolved_detail cos_sim use thr c cv job else None)
         (Matching.to_set (get cv (cv_field c)))
         (Matching.to_set (get job (job_field c)))).
Proof.
  intros Hr.
  destruct (match_cv_job_fields _ _ _ _ _ _ _ _ Hr)
    as (_ & _ & _ & _ & _ & M1 & M2 & M3 & M4 & M5 & _).
  destruct c; simpl; assumption.
Qed.

Lemma reported_coverage_eq cv job use thr use_desc weights r c q :
  (Matching.match_cv_job cos_sim cv job use thr use_desc weights).2 = Return r ->
  reported_coverage c r = Some q ->
  q = Num.round (if eligible c then resolved_coverage cos_sim use thr c cv job
                 else exact_coverage c cv job) 2.
Proof.
  intros Hr.
  destruct (match_cv_job_fields _ _ _ _ _ _ _ _ Hr)
    as (C1 & C2 & C3 & C4 & _).
  destruct c; simpl; intros [= <-]; assumption.
Qed.

(** X8. When every item the job lists for a category is literally in the
    CV, the result reports no missing item for the category and the coverage
    1.0, with the semantic fallback enabled or not. *)
Theorem literal_match_is_complete (cv job : gmap string pyval)
    (use_semantic_skills : bool) (skill_threshold : Q)
    (use_description_semantic : bool) (weights : option (gmap string Q))
    (r : Matching.match_result) (c : category) :
  (Matching.match_cv_job cos_sim cv job use_semantic_skills skill_threshold
     use_description_semantic weights).2 = Return r ->
  Matching.to_set (get job (job_field c))
  ⊆ Matching.to_set (get cv (cv_field c)) ->
  reported_missing c r = []
  /\ forall q, reported_coverage c r = Some q -> (q == 1)%Q.
Proof.
  intros Hr Hsub.
  assert (Hempty : Matching.to_set (get job (job_field c))
                   ∖ Matching.to_set (get cv (cv_field c)) = ∅)
    by set_solver.
  assert (Hex : (exact_coverage c cv job == 1)%Q).
  { apply (coverage_full_iff_and_mono _ ∅ _). exact Hsub. }
  destruct (resolved_detail_cases use_semantic_skills skill_threshold c cv job)
    as [[Hd Hc]|(_ & Hpos & _)];
    [|rewrite Hempty, size_empty in Hpos; lia].
  split.
  - rewrite (reported_missing_eq _ _ _ _ _ _ _ c Hr), Hd.
    destruct (eligible c); simpl; rewrite Hempty; reflexivity.
  - intros q Hq.
    rewrite (reported_coverage_eq _ _ _ _ _ _ _ c q Hr Hq), Hc.
    assert (E : (if eligible c then exact_coverage c cv job
                 else exact_coverage c cv job) = exact_coverage c cv job)
      by (destruct (eligible c); reflexivity).
    rewrite E, (round_comp _ (inject_Z 1) 2 Hex). apply round_1.
Qed.

(** X9. Every missing list of the result is sorted, without duplicate, and
    made of items of the job's normalised list; when the fallback is
    disabled, and always for soft skills and optional languages, it holds
    exactly the job items that are not in the CV set. *)
Theorem missing_lists_shape (cv job : gmap string pyval)
    (use_semantic_skills : bool) (skill_threshold : Q)
    (use_description_semantic : bool) (weights : option (gmap string Q))
    (r : Matching.match_result) (c : category) :
  (Matching.match_cv_job cos_sim cv job use_semantic_skills skill_threshold
     use_description_semantic weights).2 = Return r ->
  List.NoDup (reported_missing c r)
  /\ Sorted (fun a b => String.leb a b = true) (reported_missing c r)
  /\ (forall x, In x (reported_missing c r) ->
        x ∈ Matching.to_set (get job (job_field c)))
  /\ (use_semantic_skills = false \/ eligible c = false ->
      forall x, In x (reported_missing c r)
                <-> x ∈ Matching.to_set (get job (job_field c))
                    /\ x ∉ Matching.to_set (get cv (cv_field c))).
Proof.
  intros Hr. rewrite (reported_missing_eq _ _ _ _ _ _ _ c Hr).
  set (d := if eligible c then _ else None).
  pose proof (sorted_set_spec
                (Matching.missing_of d
                   (Matching.to_set (get cv (cv_field c)))
                   (Matching.to_set (get job (job_field c)))))
    as (Hmem & Hnd & Hs).
  split; [exact Hnd|]. split; [exact Hs|].
  assert (Hdiff : forall x,
             In x (elements (Matching.to_set (get job (job_field c))
                             ∖ Matching.to_set (get cv (cv_field c))))
             <-> x ∈ Matching.to_set (get job (job_field c))
                 /\ x ∉ Matching.to_set (get cv (cv_field c))).
  { intros x. rewrite <- list_elem_of_In, elem_of_elements.
    apply elem_of_difference. }
  split.
  - intros x Hx. apply Hmem in Hx.
    destruct d as [ov|] eqn:Ed; simpl in Hx; [|apply Hdiff in Hx; tauto].
    subst d. destruct (eligible c); [|discriminate].
    destruct (resolved_detail_cases use_semantic_skills skill_threshold
                c cv job) as [[Hd _]|(_ & _ & Hd)]; rewrite Hd in Ed;
      [discriminate|].
    injection Ed as <-.
    apply semantic_overlap_missing_in in Hx.
    rewrite norm_items_fixed in Hx
      by (apply (matching_to_set_canonical (get job (job_field c)))).
    unfold Matching.to_set. apply elem_of_list_to_set, list_elem_of_In, Hx.
  - intros Hoff x. rewrite Hmem.
    assert (Hnone : d = None).
    { subst d. destruct Hoff as [->| ->]; [|reflexivity].
      destruct (eligible c); [|reflexivity].
      destruct (resolved_detail_cases false skill_threshold c cv job)
        as [[Hd _]|(Hu & _)]; [exact Hd | discriminate]. }
    rewrite Hnone. simpl. apply Hdiff.
Qed.

End Reported.

(** ** What reaches the embedding model *)

Section ModelInput.
Variable cos_sim : string -> string -> Q.

Lemma fallback_call_shape use c cvl jl (C J : gset string) exact thr k :
  In k (Matching.fallback cos_sim use c cvl jl C J exact thr).2 ->
  k = OverlapCall c
        (Matching.semantic_overlap cos_sim (PStr <$> cvl) (PStr <$> jl) thr).2.
Proof.
  unfold Matching.fallback.
  destruct (_ && _ && _); [|intros []].
  destruct (Matching.semantic_overlap _ _ _ _) as [d e]. simpl.
  intros [<-|[]]. reflexivity.
Qed.

Lemma semantic_overlap_batches cv_items job_items thr batch :
  In batch (Matching.semantic_overlap cos_sim cv_items job_items thr).2 ->
  batch <> [] /\ Forall (fun s => Str.canonical s = true) batch.
Proof.
  unfold Matching.semantic_overlap.
  pose proof (norm_items_canonical cv_items) as Hcv.
  pose proof (norm_items_canonical job_items) as Hjob.
  destruct (Matching.norm_items job_items) as [|j J]; [intros []|].
  cbn [truthy_list negb].
  destruct (Matching.norm_items cv_items) as [|cv0 cvs]; [intros []|].
  destruct (Semantic.classify _ _ _ _). simpl.
  intros [<-|[<-|[]]]; (split; [discriminate | assumption]).
Qed.

Lemma similarity_batches a b batch :
  In batch (Matching.semantic_similarity_text cos_sim a b).2 ->
  batch <> [] /\ Forall (fun s => Str.canonical s = true) batch.
Proof.
  unfold Matching.semantic_similarity_text.
  destruct (truthy_str (Matching.norm_text a)) eqn:Ea;
    [|cbn [negb orb]; intros []].
  destruct (truthy_str (Matching.norm_text b)) eqn:Eb;
    [|cbn [negb orb]; intros []].
  cbn [negb orb snd].
  assert (Hc : forall x, truthy_str (Matching.norm_text x) = true ->
                         Str.canonical (Matching.norm_text x) = true).
  { intros x Hx. apply canonical_spec. apply truthy_str_true in Hx.
    pose proof (norm_text_shape x) as (? & ? & ?). auto. }
  intros [<-|[<-|[]]]; (split; [discriminate|]); repeat constructor; auto.
Qed.

Lemma match_cv_job_call_cases cv job use thr use_desc weights k :
  In k (Matching.match_cv_job cos_sim cv job use thr use_desc weights).1 ->
  (exists c cvl jl,
      k = OverlapCall c (Matching.semantic_overlap cos_sim cvl jl thr).2)
  \/ (use_desc = true
      /\ k = SimilarityCall
               (Matching.semantic_similarity_text cos_sim
                  (PStr (Matching.norm_text (get_or cv "text" (PStr ""))))
                  (PStr (Matching.norm_text
                           (get_or job "description" (PStr ""))))).2).
Proof.
  unfold Matching.match_cv_job.
  pose proof (fallback_call_shape use HardRequired
    (Matching.norm_list (get cv "skills_hard"))
    (Matching.norm_list (get job "skills_hard_required"))
    (list_to_set (Matching.norm_list (get cv "skills_hard")))
    (list_to_set (Matching.norm_list (get job "skills_hard_required")))
    (Matching.coverage
       (list_to_set (Matching.norm_list (get cv "skills_hard")))
       (list_to_set (Matching.norm_list (get job "skills_hard_required"))))
    thr) as F1.
  pose proof (fallback_call_shape use HardOptional
    (Matching.norm_list (get cv "skills_hard"))
    (Matching.norm_list (get job "skills_hard_optional"))
    (list_to_set (Matching.norm_list (get cv "skills_hard")))
    (list_to_set (Matching.norm_list (get job "skills_hard_optional")))
    (Matching.coverage
       (list_to_set (Matching.norm_list (get cv "skills_hard")))
       (list_to_set (Matching.norm_list (get job "skills_hard_optional"))))
    thr) as F2.
  pose proof (fallback_call_shape use LanguagesRequired
    (Matching.norm_list (get cv "languages"))
    (Matching.norm_list (get job "languages_required"))
    (list_to_set (Matching.norm_list (get cv "languages")))
    (list_to_set (Matching.norm_list (get job "languages_required")))
    (Matching.coverage
       (list_to_set (Matching.norm_list (get cv "languages")))
       (list_to_set (Matching.norm_list (get job "languages_required"))))
    thr) as F3.
  destruct (Matching.fallback cos_sim use HardRequired _ _ _ _ _ _)
    as [[v1 d1] c1].
  destruct (Matching.fallback cos_sim use HardOptional _ _ _ _ _ _)
    as [[v2 d2] c2].
  destruct (Matching.fallback cos_sim use LanguagesRequired _ _ _ _ _ _)
    as [[v3 d3] c3].
  cbn [snd] in F1, F2, F3.
  assert (Hskill : In k c1 \/ In k c2 \/ In k c3 ->
            exists c cvl jl,
              k = OverlapCall c (Matching.semantic_overlap cos_sim cvl jl thr).2).
  { intros [H|[H|H]];
      [apply F1 in H | apply F2 in H | apply F3 in H]; eauto. }
  destruct use_desc.
  - destruct (Matching.semantic_similarity_text _ _ _) as [sim e] eqn:Es.
    cbn [fst]. rewrite !in_app_iff.
    intros [H|[H|[H|[<-|[]]]]]; [left; apply Hskill; tauto ..|].
    right. split; reflexivity.
  - cbn [fst]. rewrite !in_app_iff.
    intros [H|[H|[H|[]]]]; left; apply Hskill; tauto.
Qed.

(** X10. Every batch of texts [match_cv_job] hands to the embedding model
    is non-empty and made of canonical strings: no empty list and no empty
    or unnormalised text is ever encoded. *)
Theorem model_input_is_canonical (cv job : gmap string pyval)
    (use_semantic_skills : bool) (skill_threshold : Q)
    (use_description_semantic : bool) (weights : option (gmap string Q))
    (k : call) (batch : list string) :
  In k (Matching.match_cv_job cos_sim cv job use_semantic_skills
          skill_threshold use_description_semantic weights).1 ->
  In batch (batches k) ->
  batch <> [] /\ Forall (fun s => Str.canonical s = true) batch.
Proof.
  intros Hk Hb.
  apply match_cv_job_call_cases in Hk as [(c & cvl & jl & ->)|[_ ->]];
    simpl in Hb.
  - eapply semantic_overlap_batches, Hb.
  - eapply similarity_batches, Hb.
Qed.

(** X11. When the description channel is off, or the CV text or the job
    description is missing, not a string, or blank, the description
    similarity of the result is 0.0 and no text is encoded for it. *)
Theorem blank_description_is_zero (cv job : gmap string pyval)
    (use_semantic_skills : bool) (skill_threshold : Q)
    (use_description_semantic : bool) (weights : option (gmap string Q))
    (r : Matching.match_result) :
  use_description_semantic = false
  \/ Matching.norm_text (get_or cv "text" (PStr "")) = EmptyString
  \/ Matching.norm_text (get_or job "description" (PStr "")) = EmptyString ->
  (Matching.match_cv_job cos_sim cv job use_semantic_skills skill_threshold
     use_description_semantic weights).2 = Return r ->
  (Matching.description_similarity r == 0)%Q
  /\ forall encoded,
       In (SimilarityCall encoded)
          (Matching.match_cv_job cos_sim cv job use_semantic_skills
             skill_threshold use_description_semantic weights).1 ->
       encoded = [].
Proof.
  intros Hblank Hr.
  assert (Hsim : use_description_semantic = false
                 \/ Matching.semantic_similarity_text cos_sim
                      (PStr (Matching.norm_text (get_or cv "text" (PStr ""))))
                      (PStr (Matching.norm_text
                               (get_or job "description" (PStr ""))))
                    = (0%Q, [])).
  { destruct Hblank as [H|[H|H]]; [left; exact H | right | right];
      unfold Matching.semantic_similarity_text; rewrite H; cbn.
    - reflexivity.
    - destruct (truthy_str _); reflexivity. }
  split.
  - destruct (match_cv_job_fields _ _ _ _ _ _ _ _ Hr)
      as (_ & _ & _ & _ & D & _).
    rewrite D. unfold description_term.
    destruct Hsim as [-> | ->]; [|destruct use_description_semantic];
      cbn [fst]; apply (round_0 3).
  - intros enc Hin.
    apply match_cv_job_call_cases in Hin as [(c & cvl & jl & Hk)|[Hu Hk]];
      [discriminate|].
    destruct Hsim as [Hf|Hz]; [congruence|].
    rewrite Hz in Hk. injection Hk as ->. reflexivity.
Qed.

End ModelInput.

(** ** The rows of [match_cv_market] *)

Section MarketRows.
Variable cos_sim : string -> string -> Q.

Lemma market_loop_rows cv jobs min_score use thr use_desc weights acc rows :
  Matching.market_loop cos_sim cv jobs min_score use thr use_desc weights acc
  = Return rows ->
  (forall row, In row rows ->
     In row acc
     \/ exists job r,
          In job jobs
          /\ (Matching.match_cv_job cos_sim cv job use thr use_desc weights).2
             = Return r
          /\ row = row_of job r /\ (min_score <= Matching.score r)%Q)
  /\ (forall row, In row acc -> In row rows)
  /\ (forall job r,
        In job jobs ->
        (Matching.match_cv_job cos_sim cv job use thr use_desc weights).2
        = Return r ->
        (min_score <= Matching.score r)%Q -> In (row_of job r) rows)
  /\ (length rows <= length acc + length jobs)%nat.
Proof.
  revert acc. induction jobs as [|job rest IH]; intros acc; simpl.
  - intros [= <-]. repeat split; try tauto; try lia.
  - destruct (Matching.match_cv_job cos_sim cv job use thr use_desc weights).2
      as [r|e] eqn:Er; simpl; [|discriminate].
    intros Hloop. destruct (IH _ Hloop) as (Hs & Hacc & Hc & Hl). clear IH.
    fold (row_of job r) in *.
    destruct (Num.geb (Matching.score r) min_score) eqn:E.
    + unfold Num.geb in E. apply Qle_bool_iff in E.
      split; [|split; [|split]].
      * intros row Hrow. destruct (Hs row Hrow) as [Hin|(j & r' & Hj & H)].
        -- apply in_app_iff in Hin as [Hin|[<-|[]]]; [left; exact Hin|].
           right. exists job, r. auto.
        -- right. exists j, r'. tauto.
      * intros row Hrow. apply Hacc, in_app_iff. left. exact Hrow.
      * intros j r' [<-|Hj] Hr' Hmin; [|eapply Hc; eassumption].
        rewrite Er in Hr'. injection Hr' as <-.
        apply Hacc, in_app_iff. right. left. reflexivity.
      * rewrite length_app in Hl. simpl in Hl. lia.
    + assert (Hlt : ~ (min_score <= Matching.score r)%Q).
      { intros H. apply Qle_bool_iff in H. unfold Num.geb in E. congruence. }
      split; [|split; [|split]].
      * intros row Hrow. destruct (Hs row Hrow) as [Hin|(j & r' & Hj & H)];
          [left; exact Hin|]. right. exists j, r'. tauto.
      * exact Hacc.
      * intros j r' [<-|Hj] Hr' Hmin; [|eapply Hc; eassumption].
        rewrite Er in Hr'. injection Hr' as <-. contradiction.
      * lia.
Qed.

Lemma market_sorted_perm cv jobs min_score use thr use_desc weights rows :
  Matching.match_cv_market cos_sim cv jobs min_score use thr use_desc weights
  = Return rows ->
  exists results,
    Matching.market_loop cos_sim cv jobs min_score use thr use_desc weights []
    = Return results
    /\ Permutation results rows.
Proof.
  unfold Matching.match_cv_market.
  destruct (Matching.market_loop _ _ _ _ _ _ _ _ _) as [res|e]; simpl;
    [|discriminate].
  destruct res as [|x res']; simpl; intros [= <-].
  - exists []. split; reflexivity.
  - exists (x :: res'). split; [reflexivity|].
    apply (sort_desc_perm Matching.key_lt (x :: res')).
Qed.


(** X13. When the weights lack a recognised key, [match_cv_market] on a
    non-empty market raises the [KeyError] of the first job's match, for the
    first missing key; on an empty market it returns the empty frame
    whatever the weights. *)
Theorem market_key_error (cv job : gmap string pyval)
    (rest : list (gmap string pyval)) (min_score : Q)
    (use_semantic_skills : bool) (skill_threshold : Q)
    (use_description_semantic : bool) (w : gmap string Q) (k : string) :
  first_missing w = Some k ->
  Matching.match_cv_market cos_sim cv (job :: rest) min_score
    use_semantic_skills skill_threshold use_description_semantic (Some w)
  = Raise (KeyError k)
  /\ Matching.match_cv_market cos_sim cv [] min_score use_semantic_skills
       skill_threshold use_description_semantic (Some w) = Return [].
Proof.
  intros Hk. split; [|reflexivity].
  pose proof (match_cv_job_first_missing cos_sim cv job use_semantic_skills
                skill_threshold use_description_semantic w) as H.
  rewrite Hk in H. unfold Matching.match_cv_market. simpl. rewrite H.
  reflexivity.
Qed.

(** X14. The matching tab of the application, which passes no weights,
    never fails: for every content of the form and every market
    [match_cv_market] returns a frame, whose rows reach the chosen minimum
    score, come in descending order of the three-level key, and are no more
    than the jobs. *)
Theorem run_matching_returns (skills_hard skills_soft languages cv_text : string)
    (df_source : list (gmap string pyval)) (min_score : Q)
    (use_sem_skills use_desc_sem : bool) (skill_threshold : Q) :
  exists rows,
    App.run_matching cos_sim skills_hard skills_soft languages cv_text
      df_source min_score use_sem_skills use_desc_sem skill_threshold
    = Return rows
    /\ Forall (reaches min_score) rows
    /\ StronglySorted key_ge rows
    /\ (length rows <= length df_source)%nat.
Proof.
  unfold App.run_matching.
  destruct (matching_market_ranked cos_sim
              (App.build_cv skills_hard skills_soft languages cv_text)
              df_source min_score use_sem_skills skill_threshold use_desc_sem
              None) as [Hprop Hret].
  destruct Hret as [rows Hrows].
  { intros k Hk. simpl in Hk.
    destruct Hk as [<-|[<-|[<-|[<-|[<-|[]]]]]]; vm_compute; eauto. }
  exists rows. split; [exact Hrows|].
  destruct (Hprop rows Hrows) as [Hreach Hsorted].
  split; [exact Hreach|]. split; [exact Hsorted|].
  destruct (market_sorted_perm _ _ _ _ _ _ _ _ Hrows) as (res & Hloop & HP).
  destruct (market_loop_rows _ _ _ _ _ _ _ _ _ Hloop) as (_ & _ & _ & Hl).
  rewrite <- (Permutation_length HP). simpl in Hl. exact Hl.
Qed.

End MarketRows.

(** ** [to_set] and [match_cv_market] of [cv_matching.py] *)

Lemma lower_all_strings (l : list string) :
  CvMatching.lower_all (PStr <$> l) = Return (Str.lower <$> l).
Proof.
  induction l as [|s l IH]; [reflexivity|].
  cbn [fmap list_fmap CvMatching.lower_all]. fold (fmap PStr l).
  rewrite IH. reflexivity.
Qed.

Lemma lower_all_raises (l : list pyval) :
  (exists v, In v l /\ forall s, v <> PStr s) ->
  CvMatching.lower_all l = Raise (AttributeError "lower").
Proof.
  induction l as [|v l IH]; intros (x & Hx & Hns); [destruct Hx|].
  simpl. destruct v as [| | | |s|]; try reflexivity.
  destruct Hx as [<-|Hx]; [exfalso; eapply Hns; reflexivity|].
  rewrite IH by eauto. reflexivity.
Qed.

Lemma lower_canonical_list (l : list string) :
  Forall (fun s => Str.canonical s = true) l -> Str.lower <$> l = l.
Proof.
  induction 1 as [|s l Hs _ IH]; [reflexivity|].
  cbn [fmap list_fmap]. fold (fmap Str.lower l). rewrite IH. f_equal.
  apply canonical_spec in Hs as (Hu & _). apply lower_fixed, Hu.
Qed.

(** X15. [to_set] of [cv_matching.py] returns the set of the lowercased
    items on a list of strings, raises [AttributeError] on a list holding
    anything else, and agrees with [to_set] of [matching.py] on a list of
    canonical strings. *)
Theorem cv_matching_to_set_spec :
  (forall l : list string,
      CvMatching.to_set (PList (PStr <$> l))
      = Return (list_to_set (Str.lower <$> l)))
  /\ (forall l : list pyval,
      (exists v, In v l /\ forall s, v <> PStr s) ->
      CvMatching.to_set (PList l) = Raise (AttributeError "lower"))
  /\ (forall l : list string,
      Forall (fun s => Str.canonical s = true) l ->
      CvMatching.to_set (PList (PStr <$> l))
      = Return (Matching.to_set (PList (PStr <$> l)))).
Proof.
  split; [|split].
  - intros l. simpl. rewrite lower_all_strings. reflexivity.
  - intros l Hl. simpl. rewrite (lower_all_raises l Hl). reflexivity.
  - intros l Hl. simpl. rewrite lower_all_strings.
    unfold Matching.to_set. simpl.
    rewrite (norm_items_fixed l Hl), (lower_canonical_list l Hl). reflexivity.
Qed.

Lemma cv_matching_to_set_spec_witness :
  CvMatching.to_set (PList [PStr "sql"; PNone]) = Raise (AttributeError "lower")
  /\ CvMatching.to_set (PList (PStr <$> ["sql"; "power bi"]))
     = Return (Matching.to_set (PList (PStr <$> ["sql"; "power bi"]))).
Proof.
  split.
  - apply (proj1 (proj2 cv_matching_to_set_spec)).
    exists PNone. split; [right; left; reflexivity | discriminate].
  - apply (proj2 (proj2 cv_matching_to_set_spec)). repeat constructor.
Defined.






(** ** [norm_text] ignores letter case and surrounding whitespace *)

Lemma lower_lstrip s : Str.lstrip (Str.lower s) = Str.lower (Str.lstrip s).
Proof.
  induction s as [|c r IH]; simpl; [reflexivity|].
  rewrite lower_char_isspace. destruct (Str.isspace c); [exact IH|reflexivity].
Qed.

Lemma lower_rstrip s : Str.rstrip (Str.lower s) = Str.lower (Str.rstrip s).
Proof.
  induction s as [|c r IH]; simpl; [reflexivity|].
  rewrite IH, lower_char_isspace.
  destruct (Str.rstrip r) as [|c' r']; simpl; [|reflexivity].
  destruct (Str.isspace c); reflexivity.
Qed.

Lemma lower_strip s : Str.strip (Str.lower s) = Str.lower (Str.strip s).
Proof. unfold Str.strip. rewrite lower_lstrip, lower_rstrip. reflexivity. Qed.

Lemma lstrip_all_space p : all_space p = true -> Str.lstrip p = EmptyString.
Proof.
  induction p as [|c r IH]; simpl; [reflexivity|].
  intros H. apply andb_prop in H as [-> Hr]. apply IH, Hr.
Qed.

Lemma rstrip_all_space q : all_space q = true -> Str.rstrip q = EmptyString.
Proof.
  induction q as [|c r IH]; simpl; [reflexivity|].
  intros H. apply andb_prop in H as [-> Hr]. rewrite (IH Hr). reflexivity.
Qed.

Lemma lstrip_padding p s :
  all_space p = true -> Str.lstrip (String.append p s) = Str.lstrip s.
Proof.
  induction p as [|c r IH]; simpl; [reflexivity|].
  intros H. apply andb_prop in H as [-> Hr]. apply IH, Hr.
Qed.

Lemma rstrip_padding s q :
  all_space q = true -> Str.rstrip (String.append s q) = Str.rstrip s.
Proof.
  intros Hq. induction s as [|c r IH]; simpl.
  - apply rstrip_all_space, Hq.
  - rewrite IH. reflexivity.
Qed.

Lemma strip_right_padding s q :
  all_space q = true -> Str.strip (String.append s q) = Str.strip s.
Proof.
  intros Hq. unfold Str.strip. induction s as [|c r IH].
  - change (String.append EmptyString q) with q.
    rewrite (lstrip_all_space q Hq). reflexivity.
  - change (String.append (String c r) q) with (String c (String.append r q)).
    cbn [Str.lstrip]. destruct (Str.isspace c); [exact IH|].
    apply (rstrip_padding (String c r) q Hq).
Qed.

(** X17. Two strings that differ by letter case only have the same
    [norm_text], and whitespace added before or after a string does not
    change its [norm_text]. *)
Theorem norm_text_ignores_case_and_padding :
  (forall a b, Str.lower a = Str.lower b ->
               Matching.norm_text (PStr a) = Matching.norm_text (PStr b))
  /\ (forall p s q, all_space p = true -> all_space q = true ->
        Matching.norm_text (PStr (String.append p (String.append s q)))
        = Matching.norm_text (PStr s)).
Proof.
  split.
  - intros a b H. unfold Matching.norm_text.
    rewrite <- !lower_strip, H. reflexivity.
  - intros p s q Hp Hq. unfold Matching.norm_text. f_equal. f_equal.
    unfold Str.strip at 1. rewrite (lstrip_padding p _ Hp).
    apply (strip_right_padding s q Hq).
Qed.

Lemma norm_text_ignores_case_and_padding_witness :
  Matching.norm_text (PStr "Power BI") = Matching.norm_text (PStr "power bi")
  /\ Matching.norm_text (PStr (String.append "  " (String.append "sql" " ")))
     = Matching.norm_text (PStr "sql").
Proof.
  split.
  - apply (proj1 norm_text_ignores_case_and_padding). reflexivity.
  - apply (proj2 norm_text_ignores_case_and_padding); reflexivity.
Defined.

(** ** Comma-separated input of the application *)

Lemma strip_trimmed s : Str.trimmed (Str.strip s) = true.
Proof.
  unfold Str.trimmed, Str.strip.
  rewrite rstrip_starts by apply lstrip_starts.
  rewrite rstrip_ends. reflexivity.
Qed.

Lemma strip_fixed s : Str.trimmed s = true -> Str.strip s = s.
Proof.
  unfold Str.trimmed. intros H. apply andb_prop in H as [Hs He].
  apply negb_true_iff in Hs. apply negb_true_iff in He.
  unfold Str.strip. rewrite (lstrip_fixed _ Hs). apply rstrip_fixed, He.
Qed.

Lemma lstrip_no_comma s :
  App.has_comma s = false -> App.has_comma (Str.lstrip s) = false.
Proof.
  induction s as [|c r IH]; simpl; [reflexivity|].
  intros H. apply orb_false_elim in H as [Hc Hr].
  destruct (Str.isspace c); [apply IH, Hr|]. simpl. rewrite Hc. exact Hr.
Qed.

Lemma rstrip_no_comma s :
  App.has_comma s = false -> App.has_comma (Str.rstrip s) = false.
Proof.
  induction s as [|c r IH]; simpl; [reflexivity|].
  intros H. apply orb_false_elim in H as [Hc Hr]. specialize (IH Hr).
  destruct (Str.rstrip r) as [|c' r'].
  - destruct (Str.isspace c); simpl; [reflexivity|].
    rewrite Hc. reflexivity.
  - simpl in *. rewrite Hc. exact IH.
Qed.

Lemma split_comma_fields s :
  App.split_comma s <> []
  /\ Forall (fun f => App.has_comma f = false) (App.split_comma s).
Proof.
  induction s as [|c r [Hne IH]]; simpl.
  - split; [discriminate | repeat constructor].
  - destruct (Ascii.eqb c App.comma) eqn:E.
    + split; [discriminate|]. constructor; [reflexivity | exact IH].
    + destruct (App.split_comma r) as [|f fs]; [congruence|].
      split; [discriminate|].
      inversion IH; subst. constructor; [|assumption].
      simpl. rewrite E. assumption.
Qed.

Lemma split_comma_plain s :
  App.has_comma s = false -> App.split_comma s = [s].
Proof.
  induction s as [|c r IH]; simpl; [reflexivity|].
  intros H. apply orb_false_elim in H as [Hc Hr].
  rewrite Hc, (IH Hr). reflexivity.
Qed.

Lemma split_comma_append a rest :
  App.has_comma a = false ->
  App.split_comma (String.append a (String App.comma rest))
  = a :: App.split_comma rest.
Proof.
  induction a as [|c r IH]; simpl; [reflexivity|].
  intros H. apply orb_false_elim in H as [Hc Hr].
  rewrite Hc, (IH Hr). reflexivity.
Qed.

Lemma strip_fields_plain fields :
  Forall (fun f => App.has_comma f = false) fields ->
  Forall (fun t => plain_field t = true) (App.strip_fields fields).
Proof.
  induction 1 as [|f fs Hf _ IH]; simpl; [constructor|].
  destruct (truthy_str (Str.strip f)) eqn:E; [|exact IH].
  constructor; [|exact IH].
  unfold plain_field. rewrite E, strip_trimmed. simpl.
  unfold Str.strip. rewrite rstrip_no_comma; [reflexivity|].
  apply lstrip_no_comma, Hf.
Qed.

Lemma plain_field_spec t :
  plain_field t = true ->
  truthy_str t = true /\ Str.strip t = t /\ App.has_comma t = false.
Proof.
  unfold plain_field. rewrite !andb_true_iff, negb_true_iff.
  intros [[Ht Htr] Hc]. split; [exact Ht|]. split; [|exact Hc].
  apply strip_fixed, Htr.
Qed.

Lemma strip_fields_leading_space x :
  App.strip_fields (App.split_comma (String " " x))
  = App.strip_fields (App.split_comma x).
Proof.
  simpl. destruct (split_comma_fields x) as [Hne _].
  destruct (App.split_comma x) as [|f fs]; [congruence|]. reflexivity.
Qed.

Lemma parse_join_plain (l : list string) :
  Forall (fun t => plain_field t = true) l ->
  App.parse_fields (App.join_comma l) = l.
Proof.
  unfold App.parse_fields.
  induction 1 as [|t l Ht Hl IH]; [reflexivity|].
  apply plain_field_spec in Ht as (Htruthy & Hstrip & Hcomma).
  destruct l as [|t' l'].
  - simpl. rewrite (split_comma_plain t Hcomma). simpl.
    rewrite Hstrip, Htruthy. reflexivity.
  - change (App.join_comma (t :: t' :: l'))
      with (String.append t
              (String App.comma (String " " (App.join_comma (t' :: l'))))).
    rewrite (split_comma_append t _ Hcomma).
    cbn [App.strip_fields]. rewrite Hstrip, Htruthy.
    rewrite strip_fields_leading_space, IH. reflexivity.
Qed.

(** X19. The fields read from a comma-separated text are non-empty,
    trimmed and without comma; and joining such fields with [", "] and
    reading the text back returns the same list. *)
Theorem parse_fields_round_trip :
  (forall text, Forall (fun t => plain_field t = true) (App.parse_fields text))
  /\ (forall l, Forall (fun t => plain_field t = true) l ->
                App.parse_fields (App.join_comma l) = l).
Proof.
  split.
  - intros text. apply strip_fields_plain, split_comma_fields.
  - apply parse_join_plain.
Qed.

Lemma parse_fields_round_trip_witness :
  App.parse_fields (App.join_comma ["python"; "power bi"; "SQL"])
  = ["python"; "power bi"; "SQL"].
Proof.
  apply (proj2 parse_fields_round_trip). repeat constructor.
Defined.

(** X20. For a string cell that is not written as a bracketed literal,
    [_parse_list_cell] returns the comma-separated fields of the stripped
    text, whatever [ast.literal_eval] would do; a list cell is returned as
    it is, so that parsing a parsed cell changes nothing. *)
Theorem parse_list_cell_plain_text (literal_eval : string -> result pyval)
    (v : string) :
  App.bracketed (Str.strip v) = false ->
  App._parse_list_cell literal_eval (PStr v)
  = PStr <$> App.parse_fields (Str.strip v)
  /\ App._parse_list_cell literal_eval
       (PList (App._parse_list_cell literal_eval (PStr v)))
     = App._parse_list_cell literal_eval (PStr v).
Proof.
  intros Hb. split; [|reflexivity].
  unfold App._parse_list_cell, App.parse_fields. rewrite Hb.
  destruct (truthy_str (Str.strip v)) eqn:Et; simpl.
  - destruct (App.has_comma (Str.strip v)) eqn:Ec; [reflexivity|].
    rewrite (split_comma_plain _ Ec). simpl.
    rewrite (strip_fixed _ (strip_trimmed v)), Et. reflexivity.
  - apply negb_false_iff, String.eqb_eq in Et. rewrite Et. reflexivity.
Qed.

Lemma parse_list_cell_plain_text_witness :
  App._parse_list_cell (fun _ => Raise (ValueError "malformed")) (PStr " sql, , Go ")
  = PStr <$> ["sql"; "Go"].
Proof.
  apply (proj1 (parse_list_cell_plain_text
                  (fun _ => Raise (ValueError "malformed")) " sql, , Go "
                  eq_refl)).
Defined.

(** ** The properties above at concrete inputs *)

Lemma example_match_returns :
  exists r,
    (Matching.match_cv_job (fun _ _ => 1 # 3)
       {[ "skills_hard" := PList [PStr "Python"; PStr "sql"] ]}
       {[ "skills_hard_required" := PList [PStr "python"] ]}
       true (75 # 100) true None).2 = Return r.
Proof.
  destruct (match_cv_job_score (fun _ _ => 1 # 3)
              {[ "skills_hard" := PList [PStr "Python"; PStr "sql"] ]}
              {[ "skills_hard_required" := PList [PStr "python"] ]}
              true (75 # 100) true None
              (45 # 100) (15 # 100) (10 # 100) (10 # 100) (20 # 100)
              eq_refl eq_refl eq_refl eq_refl eq_refl) as (r & Hr & _).
  exists r. exact Hr.
Qed.

Lemma literal_match_is_complete_witness :
  exists r,
    (Matching.match_cv_job (fun _ _ => 1 # 3)
       {[ "skills_hard" := PList [PStr "Python"; PStr "sql"] ]}
       {[ "skills_hard_required" := PList [PStr "python"] ]}
       true (75 # 100) true None).2 = Return r
    /\ reported_missing HardRequired r = [].
Proof.
  destruct example_match_returns as [r Hr]. exists r. split; [exact Hr|].
  apply (literal_match_is_complete (fun _ _ => 1 # 3) _ _ _ _ _ _ r
           HardRequired Hr).
  assert (Hjob : Matching.to_set
                   (get {[ "skills_hard_required" := PList [PStr "python"] ]}
                        (job_field HardRequired)) = {[ "python" ]})
    by (vm_compute; reflexivity).
  assert (Hcv : Matching.to_set
                  (get {[ "skills_hard" := PList [PStr "Python"; PStr "sql"] ]}
                       (cv_field HardRequired)) = {[ "python"; "sql" ]})
    by (vm_compute; reflexivity).
  rewrite Hjob, Hcv. set_solver.
Defined.

Lemma missing_lists_shape_witness :
  exists r,
    (Matching.match_cv_job (fun _ _ => 1 # 3)
       {[ "skills_hard" := PList [PStr "Python"; PStr "sql"] ]}
       {[ "skills_hard_required" := PList [PStr "python"] ]}
       true (75 # 100) true None).2 = Return r
    /\ List.NoDup (reported_missing Soft r)
    /\ forall x, In x (reported_missing Soft r)
                 <-> x ∈ Matching.to_set
                           (get {[ "skills_hard_required" :=
                                     PList [PStr "python"] ]} (job_field Soft))
                     /\ x ∉ Matching.to_set
                              (get {[ "skills_hard" :=
                                        PList [PStr "Python"; PStr "sql"] ]}
                                   (cv_field Soft)).
Proof.
  destruct example_match_returns as [r Hr]. exists r. split; [exact Hr|].
  destruct (missing_lists_shape (fun _ _ => 1 # 3) _ _ _ _ _ _ r Soft Hr)
    as (Hnd & _ & _ & Hex).
  split; [exact Hnd|]. apply Hex. right. reflexivity.
Defined.

Lemma model_input_is_canonical_witness :
  ["py"] <> [] /\ Forall (fun s => Str.canonical s = true) ["py"].
Proof.
  apply (model_input_is_canonical (fun _ _ => 1 # 3)
           {[ "skills_hard" := PList [PStr " Py "] ]}
           {[ "skills_hard_required" := PList [PStr "python"] ]}
           true (75 # 100) false None
           (OverlapCall HardRequired [["py"]; ["python"]]) ["py"]).
  - vm_compute. left. reflexivity.
  - left. reflexivity.
Defined.

Lemma blank_description_is_zero_witness :
  exists r,
    (Matching.match_cv_job (fun _ _ => 1 # 3)
       {[ "skills_hard" := PList [PStr "Python"; PStr "sql"] ]}
       {[ "skills_hard_required" := PList [PStr "python"] ]}
       true (75 # 100) true None).2 = Return r
    /\ (Matching.description_similarity r == 0)%Q.
Proof.
  destruct example_match_returns as [r Hr]. exists r. split; [exact Hr|].
  apply (blank_description_is_zero (fun _ _ => 1 # 3)
           {[ "skills_hard" := PList [PStr "Python"; PStr "sql"] ]}
           {[ "skills_hard_required" := PList [PStr "python"] ]}
           true (75 # 100) true None r); [|exact Hr].
  right. left. reflexivity.
Defined.


Lemma market_key_error_witness :
  Matching.match_cv_market (fun _ _ => 1 # 3) ∅ [∅] 40 true (75 # 100) true
    (Some {[ "hard_required" := 1%Q ]})
  = Raise (KeyError "hard_optional").
Proof.
  apply (market_key_error (fun _ _ => 1 # 3) ∅ ∅ [] 40 true (75 # 100) true
           {[ "hard_required" := 1%Q ]} "hard_optional").
  reflexivity.
Defined.

(** ** What [match_cv_job] reads, and the effect of [min_score] *)

Lemma get_insert_other (d : gmap string pyval) k v f :
  k <> f -> get (<[k := v]> d) f = get d f.
Proof. intros H. unfold get. rewrite lookup_insert_ne by exact H. reflexivity. Qed.

Lemma get_or_insert_other (d : gmap string pyval) k v f dflt :
  k <> f -> get_or (<[k := v]> d) f dflt = get_or d f dflt.
Proof.
  intros H. unfold get_or. rewrite lookup_insert_ne by exact H. reflexivity.
Qed.

(** X21. [match_cv_job] depends on six fields of the job and four fields
    of the CV only: setting any other field of either changes neither the
    result nor the calls made. *)
Theorem match_cv_job_reads_only (cos_sim : string -> string -> Q)
    (cv job : gmap string pyval) (use_semantic_skills : bool)
    (skill_threshold : Q) (use_description_semantic : bool)
    (weights : option (gmap string Q)) (k : string) (v : pyval) :
  (~ In k job_keys ->
   Matching.match_cv_job cos_sim cv (<[k := v]> job) use_semantic_skills
     skill_threshold use_description_semantic weights
   = Matching.match_cv_job cos_sim cv job use_semantic_skills
       skill_threshold use_description_semantic weights)
  /\ (~ In k cv_keys ->
      Matching.match_cv_job cos_sim (<[k := v]> cv) job use_semantic_skills
        skill_threshold use_description_semantic weights
      = Matching.match_cv_job cos_sim cv job use_semantic_skills
          skill_threshold use_description_semantic weights).
Proof.
  split; intros Hk; unfold Matching.match_cv_job.
  - rewrite !(get_insert_other job k v), !(get_or_insert_other job k v);
      try reflexivity; intros ->; apply Hk; simpl; tauto.
  - rewrite !(get_insert_other cv k v), !(get_or_insert_other cv k v);
      try reflexivity; intros ->; apply Hk; simpl; tauto.
Qed.

Lemma match_cv_job_reads_only_witness :
  Matching.match_cv_job (fun _ _ => 1 # 3) ∅
    (<["title" := PStr "Data analyst"]> {[ "skills_soft" := PList [PStr "rigueur"] ]})
    true (75 # 100) true None
  = Matching.match_cv_job (fun _ _ => 1 # 3) ∅
      {[ "skills_soft" := PList [PStr "rigueur"] ]} true (75 # 100) true None.
Proof.
  apply (proj1 (match_cv_job_reads_only (fun _ _ => 1 # 3) ∅
                  {[ "skills_soft" := PList [PStr "rigueur"] ]}
                  true (75 # 100) true None "title" (PStr "Data analyst"))).
  simpl. intros [H|[H|[H|[H|[H|[H|[]]]]]]]; discriminate H.
Defined.

(** X22. Raising [min_score] only removes rows: every row of the frame
    obtained with the higher minimum is a row of the frame obtained with the
    lower one. *)
Theorem raising_min_score_removes_rows (cos_sim : string -> string -> Q)
    (cv : gmap string pyval) (df_jobs : list (gmap string pyval))
    (min_score min_score' : Q) (use_semantic_skills : bool)
    (skill_threshold : Q) (use_description_semantic : bool)
    (weights : option (gmap string Q)) (rows rows' : list Matching.row) :
  (min_score <= min_score')%Q ->
  Matching.match_cv_market cos_sim cv df_jobs min_score use_semantic_skills
    skill_threshold use_description_semantic weights = Return rows ->
  Matching.match_cv_market cos_sim cv df_jobs min_score' use_semantic_skills
    skill_threshold use_description_semantic weights = Return rows' ->
  forall row, In row rows' -> In row rows.
Proof.
  intros Hle Hm Hm' row Hrow.
  destruct (market_sorted_perm _ _ _ _ _ _ _ _ _ Hm) as (res & Hloop & HP).
  destruct (market_sorted_perm _ _ _ _ _ _ _ _ _ Hm') as (res' & Hloop' & HP').
  destruct (market_loop_rows _ _ _ _ _ _ _ _ _ _ Hloop) as (_ & _ & Hc & _).
  destruct (market_loop_rows _ _ _ _ _ _ _ _ _ _ Hloop') as (Hs & _ & _ & _).
  apply (Permutation_in _ (Permutation_sym HP')) in Hrow.
  destruct (Hs row Hrow) as [[]|(job & r & Hj & Hr & -> & Hmin)].
  apply (Permutation_in _ HP). eapply Hc; [exact Hj | exact Hr|].
  eapply Qle_trans; eassumption.
Qed.

Lemma raising_min_score_removes_rows_witness :
  exists rows rows',
    Matching.match_cv_market (fun _ _ => 1 # 3)
      {[ "skills_hard" := PList [PStr "sql"] ]}
      [ {[ "skills_hard_required" := PList [PStr "sql"] ]};
        {[ "skills_hard_required" := PList [PStr "java"] ]} ]
      30 false (75 # 100) false None = Return rows
    /\ Matching.match_cv_market (fun _ _ => 1 # 3)
         {[ "skills_hard" := PList [PStr "sql"] ]}
         [ {[ "skills_hard_required" := PList [PStr "sql"] ]};
           {[ "skills_hard_required" := PList [PStr "java"] ]} ]
         50 false (75 # 100) false None = Return rows'
    /\ forall row, In row rows' -> In row rows.
Proof.
  assert (Hkeys : forall k, In k recognized ->
            is_Some (default Matching.default_weights None !! k)).
  { intros k Hk. simpl in Hk.
    destruct Hk as [<-|[<-|[<-|[<-|[<-|[]]]]]]; vm_compute; eauto. }
  destruct (matching_market_ranked (fun _ _ => 1 # 3)
              {[ "skills_hard" := PList [PStr "sql"] ]}
              [ {[ "skills_hard_required" := PList [PStr "sql"] ]};
                {[ "skills_hard_required" := PList [PStr "java"] ]} ]
              30 false (75 # 100) false None) as [_ Hret].
  destruct (Hret Hkeys) as [rows Hrows].
  destruct (matching_market_ranked (fun _ _ => 1 # 3)
              {[ "skills_hard" := PList [PStr "sql"] ]}
              [ {[ "skills_hard_required" := PList [PStr "sql"] ]};
                {[ "skills_hard_required" := PList [PStr "java"] ]} ]
              50 false (75 # 100) false None) as [_ Hret'].
  destruct (Hret' Hkeys) as [rows' Hrows'].
  exists rows, rows'. split; [exact Hrows|]. split; [exact Hrows'|].
  exact (raising_min_score_removes_rows (fun _ _ => 1 # 3)
           {[ "skills_hard" := PList [PStr "sql"] ]}
           [ {[ "skills_hard_required" := PList [PStr "sql"] ]};
             {[ "skills_hard_required" := PList [PStr "java"] ]} ]
           30 50 false (75 # 100) false None rows rows'
           ltac:(discriminate) Hrows Hrows').
Defined.

(** ** The fallback against the exact coverage *)

Lemma round_hundredths_checked :
  List.forallb
    (fun k => Z.eqb (Num.round_half_even
                       (Num.fl (Z.of_nat k # 100) * inject_Z 100))
                    (Z.of_nat k))
    (List.seq 0 101) = true.
Proof. vm_compute. reflexivity. Qed.

Lemma round_hundredths_fixed (z : Z) :
  0 <= z <= 100 -> Num.round (z # 100) 2 = z # 100.
Proof.
  intros Hz.
  pose proof (proj1 (List.forallb_forall _ _) round_hundredths_checked
                (Z.to_nat z)) as H.
  cbv beta in H. rewrite Z2Nat.id in H by lia.
  unfold Num.round. change (Num.pow10 2) with 100%positive. f_equal.
  apply Z.eqb_eq, H, List.in_seq. lia.
Qed.

(** A coverage rounded to two decimals is not changed by a second
    rounding. *)
Lemma round_idempotent x :
  (0 <= x <= 1)%Q -> Num.round (Num.round x 2) 2 = Num.round x 2.
Proof.
  intros Hx. pose proof (round_unit_interval x 2 Hx) as [H0 H1].
  unfold Num.round in H0, H1 |- * at 2 3.
  change (Num.pow10 2) with 100%positive in *.
  set (z := Num.round_half_even (Num.fl x * inject_Z 100)) in *.
  apply round_hundredths_fixed.
  unfold Qle in H0, H1. simpl in H0, H1. lia.
Qed.

Section FallbackGain.
Variable cos_sim : string -> string -> Q.

Lemma semantic_not_below_exact (cvl jl : list string) (threshold : Q) :
  Forall (fun s => Str.canonical s = true) cvl ->
  Forall (fun s => Str.canonical s = true) jl ->
  List.NoDup jl -> jl <> [] ->
  (forall x, threshold <= cos_sim x x)%Q ->
  (Num.round (Matching.coverage (list_to_set cvl) (list_to_set jl)) 2
   <= cov (Matching.semantic_overlap cos_sim (PStr <$> cvl) (PStr <$> jl)
             threshold).1)%Q.
Proof.
  intros Hcv Hjl Hnd Hne Hrefl.
  assert (Hsize : size (list_to_set jl : gset string) = length jl).
  { apply size_list_to_set, NoDup_ListNoDup, Hnd. }
  assert (Hlen : length jl <> 0%nat) by (destruct jl; [congruence|discriminate]).
  unfold Matching.semantic_overlap.
  rewrite (norm_items_fixed _ Hcv), (norm_items_fixed _ Hjl).
  unfold Matching.coverage. rewrite Hsize.
  apply Nat.eqb_neq in Hlen as Hlen'. rewrite Hlen'.
  destruct jl as [|j J]; [congruence|]. cbn [truthy_list negb].
  destruct cvl as [|cv0 cvs].
  - cbn [fst cov].
    assert (((list_to_set [] : gset string) ∩ list_to_set (j :: J)) = ∅) as ->
      by set_solver.
    rewrite size_empty.
    rewrite (round_comp _ (inject_Z 0)); [rewrite round_0; apply Qle_refl|].
    unfold Qdiv. apply Qmult_0_l.
  - rewrite classify_filter. cbn [app fst cov].
    apply round_mono, ratio_mono; [|exact Hlen].
    set (p := Semantic.is_matched cos_sim threshold cv0 cvs).
    assert (Hnd' : List.NoDup (List.filter p (j :: J)))
      by (apply List.NoDup_filter, Hnd).
    rewrite <- (size_list_to_set (C := gset string) (List.filter p (j :: J)))
      by (apply NoDup_ListNoDup, Hnd').
    apply subseteq_size. intros x Hx.
    apply elem_of_intersection in Hx as [Hxc Hxj].
    apply elem_of_list_to_set, list_elem_of_In in Hxc.
    apply elem_of_list_to_set, list_elem_of_In in Hxj.
    apply elem_of_list_to_set, list_elem_of_In, filter_In.
    split; [exact Hxj|]. apply is_matched_exists.
    exists x. split; [exact Hxc | apply Hrefl].
Qed.

Lemma resolved_when_fallback use thr c cv job d :
  resolved_detail cos_sim use thr c cv job = Some d ->
  resolved_coverage cos_sim use thr c cv job = cov d
  /\ d = (Matching.semantic_overlap cos_sim
            (PStr <$> Matching.norm_list (get cv (cv_field c)))
            (PStr <$> Matching.norm_list (get job (job_field c))) thr).1
  /\ Matching.norm_list (get job (job_field c)) <> [].
Proof.
  unfold resolved_detail, resolved_coverage, Matching.fallback.
  destruct use; [|discriminate].
  destruct (Matching.norm_list (get job (job_field c))) as [|j J] eqn:Ej;
    [discriminate|].
  cbn [truthy_list andb].
  destruct (0 <? size _)%nat; [|discriminate].
  destruct (Matching.semantic_overlap _ _ _ _) as [ov e]. cbn [fst snd].
  intros [= <-]. split; [reflexivity|]. split; [reflexivity | discriminate].
Qed.

(** X23. The fallback, introduced "only to reduce false negatives", does
    so when the job's normalised list for the category has no duplicate and
    every text is at least [skill_threshold]-similar to itself: the coverage
    reported with the fallback enabled is then never below the one reported
    with the fallback disabled. *)
Theorem fallback_never_lowers_coverage (cv job : gmap string pyval)
    (skill_threshold : Q) (use_description_semantic : bool)
    (weights : option (gmap string Q)) (c : category)
    (r_on r_off : Matching.match_result) (q_on q_off : Q) :
  List.NoDup (Matching.norm_list (get job (job_field c))) ->
  (forall x, skill_threshold <= cos_sim x x)%Q ->
  (Matching.match_cv_job cos_sim cv job true skill_threshold
     use_description_semantic weights).2 = Return r_on ->
  (Matching.match_cv_job cos_sim cv job false skill_threshold
     use_description_semantic weights).2 = Return r_off ->
  reported_coverage c r_on = Some q_on ->
  reported_coverage c r_off = Some q_off ->
  (q_off <= q_on)%Q.
Proof.
  intros Hnd Hrefl Hon Hoff Hqon Hqoff.
  rewrite (reported_coverage_eq _ _ _ _ _ _ _ _ c q_on Hon Hqon).
  rewrite (reported_coverage_eq _ _ _ _ _ _ _ _ c q_off Hoff Hqoff).
  destruct (eligible c); [|apply Qle_refl].
  destruct (resolved_detail_cases cos_sim false skill_threshold c cv job)
    as [[_ ->]|(Hu & _)]; [|discriminate].
  destruct (resolved_detail_cases cos_sim true skill_threshold c cv job)
    as [[_ ->]|(_ & _ & Hd)]; [apply Qle_refl|].
  destruct (resolved_when_fallback _ _ _ _ _ _ Hd) as (-> & _ & Hne).
  rewrite <- (round_idempotent (exact_coverage c cv job))
    by apply coverage_bounds.
  apply round_mono. unfold exact_coverage, Matching.to_set.
  apply semantic_not_below_exact; try assumption.
  - apply (matching_to_set_canonical (get cv (cv_field c))).
  - apply (matching_to_set_canonical (get job (job_field c))).
Qed.

End FallbackGain.

Lemma fallback_never_lowers_coverage_witness :
  exists r_on r_off,
    (Matching.match_cv_job (fun a b => if String.eqb a b then 1%Q else 8 # 10)
       {[ "skills_hard" := PList [PStr "py"] ]}
       {[ "skills_hard_required" := PList [PStr "python"; PStr "py"] ]}
       true (75 # 100) false None).2 = Return r_on
    /\ (Matching.match_cv_job (fun a b => if String.eqb a b then 1%Q else 8 # 10)
          {[ "skills_hard" := PList [PStr "py"] ]}
          {[ "skills_hard_required" := PList [PStr "python"; PStr "py"] ]}
          false (75 # 100) false None).2 = Return r_off
    /\ (Matching.hard_required_coverage r_off
        <= Matching.hard_required_coverage r_on)%Q.
Proof.
  destruct (match_cv_job_score (fun a b => if String.eqb a b then 1%Q else 8 # 10)
              {[ "skills_hard" := PList [PStr "py"] ]}
              {[ "skills_hard_required" := PList [PStr "python"; PStr "py"] ]}
              true (75 # 100) false None
              (45 # 100) (15 # 100) (10 # 100) (10 # 100) (20 # 100)
              eq_refl eq_refl eq_refl eq_refl eq_refl) as (r_on & Hon & _).
  destruct (match_cv_job_score (fun a b => if String.eqb a b then 1%Q else 8 # 10)
              {[ "skills_hard" := PList [PStr "py"] ]}
              {[ "skills_hard_required" := PList [PStr "python"; PStr "py"] ]}
              false (75 # 100) false None
              (45 # 100) (15 # 100) (10 # 100) (10 # 100) (20 # 100)
              eq_refl eq_refl eq_refl eq_refl eq_refl) as (r_off & Hoff & _).
  exists r_on, r_off. split; [exact Hon|]. split; [exact Hoff|].
  apply (fallback_never_lowers_coverage
           (fun a b => if String.eqb a b then 1%Q else 8 # 10)
           {[ "skills_hard" := PList [PStr "py"] ]}
           {[ "skills_hard_required" := PList [PStr "python"; PStr "py"] ]}
           (75 # 100) false None HardRequired r_on r_off _ _).
  - vm_compute. repeat constructor; simpl; intuition discriminate.
  - intros x. rewrite String.eqb_refl. discriminate.
  - exact Hon.
  - exact Hoff.
  - reflexivity.
  - reflexivity.
Defined.
